(** * NiceOutputStream: the GOutputStream adapter of libnice (agent/outputstream.c)

    A shallow embedding of the output stream that wraps one stream/component
    pair of a NiceAgent: the blocking write with its retry loop, the
    non-blocking write, the readiness query and the handler of the agent's
    streams-removed signal, followed by the properties proved about them. *)

From Stdlib Require Import ZArith List Bool String Lia.
Import ListNotations.
Open Scope Z_scope.

(** ** Machine integers

    [guint] and [gint] are 32 bits wide, [gsize] and [gssize] 64 bits.  Values
    are kept in [Z]; the two conversions the source performs between [gsize]
    and [gssize] are written out. *)

Definition G_MAXSSIZE : Z := 2 ^ 63 - 1.
Definition G_MAXSIZE : Z := 2 ^ 64 - 1.

(** [(gsize) z] *)
Definition to_gsize (z : Z) : Z := z mod 2 ^ 64.

(** [(gssize) z] *)
Definition to_gssize (z : Z) : Z :=
  let m := z mod 2 ^ 64 in
  if m <? 2 ^ 63 then m else m - 2 ^ 64.

(** ** GError *)

Inductive GQuark : Type :=
| G_IO_ERROR
| G_QUARK_OTHER.

Inductive GIOErrorEnum : Type :=
| G_IO_ERROR_FAILED
| G_IO_ERROR_CLOSED
| G_IO_ERROR_CANCELLED
| G_IO_ERROR_WOULD_BLOCK
| G_IO_ERROR_BROKEN_PIPE.

Record GError : Type := mkGError {
  domain : GQuark;
  code : GIOErrorEnum;
  message : string
}.

Definition GQuark_eqb (a b : GQuark) : bool :=
  match a, b with
  | G_IO_ERROR, G_IO_ERROR => true
  | G_QUARK_OTHER, G_QUARK_OTHER => true
  | _, _ => false
  end.

Definition GIOErrorEnum_eqb (a b : GIOErrorEnum) : bool :=
  match a, b with
  | G_IO_ERROR_FAILED, G_IO_ERROR_FAILED => true
  | G_IO_ERROR_CLOSED, G_IO_ERROR_CLOSED => true
  | G_IO_ERROR_CANCELLED, G_IO_ERROR_CANCELLED => true
  | G_IO_ERROR_WOULD_BLOCK, G_IO_ERROR_WOULD_BLOCK => true
  | G_IO_ERROR_BROKEN_PIPE, G_IO_ERROR_BROKEN_PIPE => true
  | _, _ => false
  end.

(** [g_error_matches (error, domain, code)]: false on a NULL error. *)
Definition g_error_matches (error : option GError) (d : GQuark)
  (c : GIOErrorEnum) : bool :=
  match error with
  | None => false
  | Some e => GQuark_eqb (domain e) d && GIOErrorEnum_eqb (code e) c
  end.

Definition is_set {A : Type} (p : option A) : bool :=
  match p with Some _ => true | None => false end.

(** The two errors [nice_output_stream_write] and
    [nice_output_stream_write_nonblocking] raise for a closed stream. *)
Definition stream_closed_error : GError :=
  mkGError G_IO_ERROR G_IO_ERROR_CLOSED "Stream is closed.".

Definition agent_finalised_error : GError :=
  mkGError G_IO_ERROR G_IO_ERROR_CLOSED
    "Stream is closed due to the NiceAgent being finalised.".

(** [g_strerror (EAGAIN)] *)
Definition strerror_EAGAIN : string := "Resource temporarily unavailable".

Definition would_block_error : GError :=
  mkGError G_IO_ERROR G_IO_ERROR_WOULD_BLOCK strerror_EAGAIN.

(** What [g_cancellable_set_error_if_cancelled] stores for a cancelled
    [GCancellable]. *)
Definition cancelled_error : GError :=
  mkGError G_IO_ERROR G_IO_ERROR_CANCELLED "Operation was cancelled".

(** ** The agent's data the stream looks at *)

(** Opaque handles of the pseudo-TCP socket and of a [GSocket]. *)
Definition PseudoTcpSocket : Type := Z.
Definition GSocket : Type := Z.

Record GCancellable : Type := mkGCancellable {
  cancelled : bool
}.

Record NiceSocket : Type := mkNiceSocket {
  fileno : GSocket
}.

Record SocketSource : Type := mkSocketSource {
  socket : NiceSocket
}.

Record Component : Type := mkComponent {
  id : Z;
  tcp : option PseudoTcpSocket;
  socket_sources : list SocketSource;
  tcp_writable_cancellable : option GCancellable
}.

Record Stream : Type := mkStream {
  stream_ident : Z;
  components : list Component
}.

Record NiceAgent : Type := mkNiceAgent {
  reliable : bool;
  streams : list Stream
}.

(** [G_IO_OUT] of [GIOCondition]. *)
Definition G_IO_OUT : Z := 4.

(** ** The stream object

    [closed] is the flag of the parent [GOutputStream] that
    [g_output_stream_is_closed] reads; [agent_ref] is the weak reference,
    [None] once the agent has been finalised. *)
Record NiceOutputStream : Type := mkNiceOutputStream {
  closed : bool;
  agent_ref : option NiceAgent;
  stream_id : Z;
  component_id : Z
}.

Definition g_output_stream_is_closed (s : NiceOutputStream) : bool := closed s.

(** Modelled from the spec: [g_output_stream_close] belongs to GLib and is
    missing from the sources; explicit close sets [closed] and is idempotent,
    leaving the identity of the stream alone. *)
Definition g_output_stream_close (s : NiceOutputStream) : NiceOutputStream :=
  {| closed := true;
     agent_ref := agent_ref s;
     stream_id := stream_id s;
     component_id := component_id s |}.

(** ** streams_removed_cb

    [stream_ids] is the memory the handler is handed, from index 0 on.  The
    loop reads [stream_ids[i]] until it meets a 0; it answers with the stream,
    whether [g_output_stream_close] was called and the index of the last entry
    it read.  Running off the end of the list is a read past the array, which
    has no defined result. *)
Fixpoint streams_removed_loop (self : NiceOutputStream) (stream_ids : list Z)
  (i : nat) : option (NiceOutputStream * bool * nat) :=
  match stream_ids with
  | [] => None
  | x :: rest =>
      if x =? 0 then Some (self, false, i)
      else if x =? stream_id self
           then Some (g_output_stream_close self, true, i)
           else streams_removed_loop self rest (S i)
  end.

Definition streams_removed_cb (self : NiceOutputStream) (stream_ids : list Z)
  : option (NiceOutputStream * bool * nat) :=
  streams_removed_loop self stream_ids 0%nat.

(** ** Readiness query

    The component lookup, the pseudo-TCP query and the socket poll are the
    agent's and GLib's; they are taken as given. *)
Section Pollable.

Variable agent_find_component : NiceAgent -> Z -> Z -> option (Stream * Component).
Variable pseudo_tcp_socket_can_send : PseudoTcpSocket -> bool.
Variable g_socket_condition_check : GSocket -> Z -> Z.

(** The [for] loop over [component->socket_sources]. *)
Fixpoint socket_sources_writable (i : list SocketSource) : bool :=
  match i with
  | [] => false
  | socket_source :: next =>
      if negb (g_socket_condition_check (fileno (socket socket_source)) G_IO_OUT =? 0)
      then true
      else socket_sources_writable next
  end.

Definition nice_output_stream_is_writable (stream : NiceOutputStream) : bool :=
  if g_output_stream_is_closed stream then false
  else
    match agent_ref stream with
    | None => false
    | Some agent =>
        match agent_find_component agent (stream_id stream) (component_id stream) with
        | None => false
        | Some (_, component) =>
            if reliable agent
               && match tcp component with
                  | None => false
                  | Some t => pseudo_tcp_socket_can_send t
                  end
            then true
            else socket_sources_writable (socket_sources component)
        end
    end.

End Pollable.

(** ** Blocking write

    What the call does to the world outside is kept as a list of events, in
    program order. *)
Inductive Event : Type :=
| EvWaiterNew
    (* g_slice_new0 (WriteData) *)
| EvCancellableConnect
    (* g_cancellable_connect (cancellable, write_cancelled_cb, ...) *)
| EvSignalConnect
    (* g_signal_connect_data (agent, "reliable-transport-writable", ...) *)
| EvSend (offset size : Z) (with_cancellable : bool)
         (n_sent_messages : Z) (child_error : option GError)
    (* nice_agent_send_messages_nonblocking on the slice
       { buffer + offset, size }, and what it answered *)
| EvCondWait
    (* g_cond_wait *)
| EvSignalDisconnect
    (* g_signal_handler_disconnect *)
| EvCancellableDisconnect
    (* g_cancellable_disconnect *)
| EvWaiterUnref.
    (* write_data_unref by the call itself *)

(** [WriteData], without its lock, condition and reference count: the order
    in which the callbacks and the writer touch the record is given by the
    script of the call below. *)
Record WriteData : Type := mkWriteData {
  wd_error : option GError;
  writable : bool
}.

(** [g_cancellable_set_error_if_cancelled] leaves an error that is already
    there. *)
Definition write_cancelled_cb (write_data : WriteData) : WriteData :=
  {| wd_error := match wd_error write_data with
                 | Some e => Some e
                 | None => Some cancelled_error
                 end;
     writable := writable write_data |}.

Definition reliable_transport_writeable_cb (write_data : WriteData) : WriteData :=
  {| wd_error := wd_error write_data; writable := true |}.

(** What ends a [g_cond_wait]. *)
Inductive Wake : Type :=
| WakeWritable     (* reliable_transport_writeable_cb broadcast *)
| WakeCancelled    (* write_cancelled_cb broadcast *)
| WakeSpurious.

(** One turn of the [do ... while] loop as the rest of the process makes it
    happen: the answer of [nice_agent_send_messages_nonblocking], the
    callbacks that ran while the lock was released for that call, and, should
    the writer park in [g_cond_wait], what wakes it ([None]: nothing ever
    does). *)
Record Iteration : Type := mkIteration {
  n_sent : Z;
  send_error : option GError;
  writable_cb_in_send : bool;
  cancelled_cb_in_send : bool;
  wake : option Wake
}.

(** The script of one call: its loop turns, and whether [write_cancelled_cb]
    runs between the end of the loop and [g_cancellable_disconnect]. *)
Record WriteEnv : Type := mkWriteEnv {
  iterations : list Iteration;
  late_cancel : bool
}.

Record LoopExit : Type := mkLoopExit {
  exit_data : WriteData;
  exit_len : Z;
  exit_error : option GError;
  exit_log : list Event
}.

Definition wake_callback (cancellable : option GCancellable) (w : Wake)
  (write_data : WriteData) : WriteData :=
  match w with
  | WakeWritable => reliable_transport_writeable_cb write_data
  | WakeCancelled =>
      if is_set cancellable then write_cancelled_cb write_data else write_data
  | WakeSpurious => write_data
  end.

(** The test [while ((gsize) len < count)] at the end of a turn that did not
    [break]: either the remaining turns follow, or the loop is left. *)
Definition loop_again (count : Z) (here : LoopExit) (again : option LoopExit)
  : option LoopExit :=
  if to_gsize (exit_len here) <? count then
    match again with
    | None => None
    | Some x =>
        Some (mkLoopExit (exit_data x) (exit_len x) (exit_error x)
                (exit_log here ++ exit_log x))
    end
  else Some here.

Fixpoint write_loop (count : Z) (cancellable : option GCancellable)
  (write_data : WriteData) (len : Z) (its : list Iteration) : option LoopExit :=
  match its with
  | [] => None
  | it :: rest =>
      let attempt :=
        EvSend len (to_gsize (count - len)) (is_set cancellable)
          (n_sent it) (send_error it) in
      let wd := {| wd_error := wd_error write_data; writable := false |} in
      let wd := if writable_cb_in_send it
                then reliable_transport_writeable_cb wd else wd in
      let wd := if is_set cancellable && cancelled_cb_in_send it
                then write_cancelled_cb wd else wd in
      if (n_sent it =? -1)
         && g_error_matches (send_error it) G_IO_ERROR G_IO_ERROR_WOULD_BLOCK
      then
        (* EWOULDBLOCK. *)
        if negb (writable wd) && negb (is_set (wd_error wd)) then
          match wake it with
          | None => None
          | Some w =>
              let wd := wake_callback cancellable w wd in
              loop_again count (mkLoopExit wd len None [attempt; EvCondWait])
                (write_loop count cancellable wd len rest)
          end
        else
          loop_again count (mkLoopExit wd len None [attempt])
            (write_loop count cancellable wd len rest)
      else if 0 <? n_sent it then
        (* Success. *)
        let len := to_gssize count in
        loop_again count (mkLoopExit wd len (send_error it) [attempt])
          (write_loop count cancellable wd len rest)
      else
        (* Other error. *)
        Some (mkLoopExit wd (n_sent it) (send_error it) [attempt])
  end.

(** A call either returns [len] with what it left in [*error], or dies on one
    of its two [g_assert]s, or returns [len] with [*error] pointing at a
    [GError] that has already been freed. *)
Inductive Outcome : Type :=
| Returned (len : Z) (error : option GError)
| Aborted
| ReturnedFreed (len : Z) (error : GError).

Record WriteReturn : Type := mkWriteReturn {
  outcome : Outcome;
  events : list Event;
  waiter : option WriteData
}.

(** Lines 437-461: the two disconnects, the cancellation check, the two
    assertions and the return.  The trace of the whole call is put together
    here, the events of lines 383-401 ahead of those of the loop.

    When the cancellation wins, line 447 moves [write_data->error] into
    [child_error] without clearing the field.  The two disconnects have
    released two of the three references by then and line 452 releases the
    last, so [write_data_unref] frees that very error (line 318) before line
    456 hands it to the caller. *)
Definition write_finish (cancellable : option GCancellable) (late : bool)
  (x : LoopExit) : WriteReturn :=
  let wd := if is_set cancellable && late
            then write_cancelled_cb (exit_data x) else exit_data x in
  let cancel_wins :=
    is_set cancellable
    && (is_set (wd_error wd) && negb (is_set (exit_error x)) && (exit_len x =? 0)) in
  let child_error := if cancel_wins then wd_error wd else exit_error x in
  let len := if cancel_wins then -1 else exit_len x in
  let log :=
    [EvWaiterNew]
    ++ (if is_set cancellable then [EvCancellableConnect] else [])
    ++ [EvSignalConnect]
    ++ exit_log x
    ++ [EvSignalDisconnect]
    ++ (if is_set cancellable then [EvCancellableDisconnect] else [])
    ++ [EvWaiterUnref] in
  mkWriteReturn
    (if negb (Bool.eqb (is_set child_error) (len =? -1)) then Aborted
     else if len =? 0 then Aborted
     else match cancel_wins, child_error with
          | true, Some e => ReturnedFreed len e
          | _, _ => Returned len child_error
          end)
    log (Some wd).

(** [None] when the script ends with the writer still in its loop: the call
    has not returned. *)
Definition nice_output_stream_write (stream : NiceOutputStream) (count : Z)
  (cancellable : option GCancellable) (env : WriteEnv) : option WriteReturn :=
  if g_output_stream_is_closed stream then
    Some (mkWriteReturn (Returned (-1) (Some stream_closed_error)) [] None)
  else
    match agent_ref stream with
    | None =>
        Some (mkWriteReturn (Returned (-1) (Some agent_finalised_error)) [] None)
    | Some agent =>
        if count =? 0 then Some (mkWriteReturn (Returned 0 None) [] None)
        else
          let write_data := {| wd_error := None; writable := false |} in
          (* g_cancellable_connect runs the callback at once on a token that
             is already cancelled *)
          let write_data :=
            match cancellable with
            | Some c => if cancelled c then write_cancelled_cb write_data
                        else write_data
            | None => write_data
            end in
          match write_loop count cancellable write_data 0 (iterations env) with
          | None => None
          | Some x => Some (write_finish cancellable (late_cancel env) x)
          end
    end.

(** The send attempts of a call, in order. *)
Definition is_send (e : Event) : bool :=
  match e with EvSend _ _ _ _ _ => true | _ => false end.

Definition send_attempts (log : list Event) : list Event := filter is_send log.

(** ** Non-blocking write and event source *)
Section PollableWrite.

Variable agent_find_component : NiceAgent -> Z -> Z -> option (Stream * Component).
Variable pseudo_tcp_socket_can_send : PseudoTcpSocket -> bool.
Variable g_socket_condition_check : GSocket -> Z -> Z.

(** [send] is what [nice_agent_send_messages_nonblocking] answers, should the
    call get as far as asking: its return value and what it leaves in
    [*error]. *)
Definition nice_output_stream_write_nonblocking (stream : NiceOutputStream)
  (count : Z) (send : Z * option GError) : Z * option GError * list Event :=
  if g_output_stream_is_closed stream then
    (-1, Some stream_closed_error, [])
  else
    match agent_ref stream with
    | None => (-1, Some agent_finalised_error, [])
    | Some agent =>
        if count =? 0 then (0, None, [])
        else if negb (nice_output_stream_is_writable agent_find_component
                        pseudo_tcp_socket_can_send g_socket_condition_check
                        stream)
        then (-1, Some would_block_error, [])
        else
          let n_sent_messages := fst send in
          ((if n_sent_messages =? 1 then to_gssize count else n_sent_messages),
           snd send,
           [EvSend 0 count false n_sent_messages (snd send)])
    end.

(** The child sources added to the [GSource] that
    [nice_output_stream_create_source] returns. *)
Definition nice_output_stream_create_source (stream : NiceOutputStream)
  (cancellable : option GCancellable) : list GCancellable :=
  let component_source :=
    match cancellable with Some c => [c] | None => [] end in
  if g_output_stream_is_closed stream then component_source
  else
    match agent_ref stream with
    | None => component_source
    | Some agent =>
        match agent_find_component agent (stream_id stream) (component_id stream) with
        | None => component_source
        | Some (_, component) =>
            match tcp_writable_cancellable component with
            | Some c => component_source ++ [c]
            | None => component_source
            end
        end
    end.

End PollableWrite.

(** ** Construction and disposal *)

(** [nice_output_stream_init] followed by the three construct-only
    properties; [NULL] when a [g_return_val_if_fail] check fails. *)
Definition nice_output_stream_new (agent : option NiceAgent)
  (stream_id component_id : Z) : option NiceOutputStream :=
  match agent with
  | None => None
  | Some a =>
      if negb (1 <=? stream_id) then None
      else if negb (1 <=? component_id) then None
      else Some (mkNiceOutputStream false (Some a) stream_id component_id)
  end.

(** The dispose of the parent class, which line 194 chains up to.  It is
    GLib's ([GOutputStream]) and is missing from the sources: it closes a
    stream that is still open. *)
Definition g_output_stream_dispose (s : NiceOutputStream) : NiceOutputStream :=
  if g_output_stream_is_closed s then s else g_output_stream_close s.

Definition nice_output_stream_dispose (self : NiceOutputStream) : NiceOutputStream :=
  g_output_stream_dispose
    {| closed := closed self;
       agent_ref := None;
       stream_id := stream_id self;
       component_id := component_id self |}.

(** ** The stream under a sequence of operations

    Everything that can be done to a stream in this file, as a transition on
    its state.  The writes, the readiness query and the source constructor
    read the stream and store nothing in it. *)
Inductive Operation : Type :=
| OpWrite (count : Z) (cancellable : option GCancellable) (env : WriteEnv)
| OpWriteNonblocking (count : Z) (send : Z * option GError)
| OpIsWritable
| OpCreateSource (cancellable : option GCancellable)
| OpStreamsRemoved (stream_ids : list Z)
| OpClose
| OpAgentFinalised
| OpDispose.

(** [None]: the operation does not come back (a write that stays parked, a
    handler reading past an unterminated array). *)
Definition step (self : NiceOutputStream) (op : Operation)
  : option NiceOutputStream :=
  match op with
  | OpWrite count cancellable env =>
      match nice_output_stream_write self count cancellable env with
      | Some _ => Some self
      | None => None
      end
  | OpWriteNonblocking _ _ => Some self
  | OpIsWritable => Some self
  | OpCreateSource _ => Some self
  | OpStreamsRemoved stream_ids =>
      match streams_removed_cb self stream_ids with
      | Some (self', _, _) => Some self'
      | None => None
      end
  | OpClose => Some (g_output_stream_close self)
  | OpAgentFinalised =>
      Some (mkNiceOutputStream (closed self) None (stream_id self)
              (component_id self))
  | OpDispose => Some (nice_output_stream_dispose self)
  end.

Fixpoint steps (self : NiceOutputStream) (ops : list Operation)
  : option NiceOutputStream :=
  match ops with
  | [] => Some self
  | op :: rest =>
      match step self op with
      | Some self' => steps self' rest
      | None => None
      end
  end.

(** ** What the agent promises about a send

    [nice_agent_send_messages_nonblocking] answers -1 exactly when it sets an
    error, and never anything below -1. *)
Definition agent_reports_errors (it : Iteration) : Prop :=
  (n_sent it = -1 <-> send_error it <> None) /\ -1 <= n_sent it.

(** Moreover it never answers 0. *)
Definition agent_never_zero (it : Iteration) : Prop :=
  n_sent it <> 0.

(** A turn on which the agent says EWOULDBLOCK. *)
Definition would_block (it : Iteration) : bool :=
  (n_sent it =? -1)
  && g_error_matches (send_error it) G_IO_ERROR G_IO_ERROR_WOULD_BLOCK.

(** A turn after which the writer asks again: EWOULDBLOCK, and something
    wakes the writer if it parks. *)
Definition retried (it : Iteration) : Prop :=
  would_block it = true /\ wake it <> None.

(** Modelled from the spec: [agent_find_component] is the agent's and is
    missing from the sources; [find_component(stream_id, component_id)] gives
    the component's handle or NotFound.  It stands in for the lookup in the
    examples. *)
Definition agent_find_component (agent : NiceAgent) (stream_id component_id : Z)
  : option (Stream * Component) :=
  match find (fun s => stream_ident s =? stream_id) (streams agent) with
  | None => None
  | Some s =>
      match find (fun c => id c =? component_id) (components s) with
      | None => None
      | Some c => Some (s, c)
      end
  end.

(** ** Properties of the object

    The three construct-only properties.  GObject hands [set_property] a
    value of the type the property was installed with, so a property id
    comes with its value; any other id only earns a warning. *)
Definition PROP_AGENT : Z := 1.
Definition PROP_STREAM_ID : Z := 2.
Definition PROP_COMPONENT_ID : Z := 3.

Inductive Property : Type :=
| PropAgent (agent : option NiceAgent)
| PropStreamId (v : Z)
| PropComponentId (v : Z)
| PropInvalid (prop_id : Z).

Definition prop_id_of (p : Property) : Z :=
  match p with
  | PropAgent _ => PROP_AGENT
  | PropStreamId _ => PROP_STREAM_ID
  | PropComponentId _ => PROP_COMPONENT_ID
  | PropInvalid prop_id => prop_id
  end.

(** The id is one of the three installed properties. *)
Definition installed (p : Property) : Prop :=
  match p with PropInvalid _ => False | _ => True end.

(** The instance as [nice_output_stream_init] leaves it: open, private data
    zeroed, weak reference initialised to NULL. *)
Definition nice_output_stream_init : NiceOutputStream :=
  mkNiceOutputStream false None 0 0.

(** The stream afterwards, and whether [streams_removed_cb] got connected to
    the agent's streams-removed signal. *)
Definition nice_output_stream_set_property (self : NiceOutputStream)
  (p : Property) : NiceOutputStream * bool :=
  match p with
  | PropAgent agent =>
      (mkNiceOutputStream (closed self) agent (stream_id self)
         (component_id self),
       is_set agent)
  | PropStreamId v =>
      (mkNiceOutputStream (closed self) (agent_ref self) v (component_id self),
       false)
  | PropComponentId v =>
      (mkNiceOutputStream (closed self) (agent_ref self) (stream_id self) v,
       false)
  | PropInvalid _ => (self, false)
  end.

(** [None]: the id is none of the three, [value] is left alone. *)
Definition nice_output_stream_get_property (self : NiceOutputStream)
  (prop_id : Z) : option Property :=
  if prop_id =? PROP_AGENT then Some (PropAgent (agent_ref self))
  else if prop_id =? PROP_STREAM_ID then Some (PropStreamId (stream_id self))
  else if prop_id =? PROP_COMPONENT_ID
       then Some (PropComponentId (component_id self))
       else None.

(** ** The reference count of the WriteData

    [write_data_unref]: the count after [g_atomic_int_dec_and_test]; the
    record is freed when it is 0. *)
Definition write_data_unref (ref_count : Z) : Z := ref_count - 1.

(** The count along the trace of a call ([None] while there is no record).
    It is set to 3 after the allocation.  [write_data_unref] is the
    [GClosureNotify] of the signal connection, the [GDestroyNotify] handed to
    [g_cancellable_connect] and what the writer calls itself at line 452;
    GLib runs each notify once, when the connection is given up. *)
Fixpoint ref_count_after (log : list Event) (ref_count : option Z) : option Z :=
  match log with
  | [] => ref_count
  | EvWaiterNew :: rest => ref_count_after rest (Some 3)
  | EvSignalDisconnect :: rest
  | EvCancellableDisconnect :: rest
  | EvWaiterUnref :: rest =>
      ref_count_after rest (option_map write_data_unref ref_count)
  | _ :: rest => ref_count_after rest ref_count
  end.

(** ** Reading a trace *)

Definition is_wait (e : Event) : bool :=
  match e with EvCondWait => true | _ => false end.

(** The times the writer parked in [g_cond_wait]. *)
Definition waits (log : list Event) : list Event := filter is_wait log.

(** The events of the loop itself. *)
Definition loop_event (e : Event) : bool := is_send e || is_wait e.

(** The answers of the agent that get past both assertions of a call without
    a token. *)
Definition answer_passes (it : Iteration) : bool :=
  ((0 <? n_sent it) && negb (is_set (send_error it)))
  || ((n_sent it =? -1) && is_set (send_error it))
  || ((n_sent it <? -1) && negb (is_set (send_error it))).

(** A turn during which the token does not fire. *)
Definition token_quiet (it : Iteration) : bool :=
  negb (cancelled_cb_in_send it)
  && match wake it with Some WakeCancelled => false | _ => true end.

(** Whether [write_cancelled_cb] runs on a turn that is answered EWOULDBLOCK:
    during the send, or as what wakes the writer, which parks when the
    writable callback did not run during the send. *)
Definition fires_on_retry (it : Iteration) : bool :=
  cancelled_cb_in_send it
  || (negb (writable_cb_in_send it)
      && match wake it with Some WakeCancelled => true | _ => false end).

(** Whether the token [t] of a call has fired by the time line 446 looks at
    the record: it was cancelled when it was connected, or the callback ran
    on one of the EWOULDBLOCK turns [blocked], or during the [last] send, or
    between the loop and [g_cancellable_disconnect]. *)
Definition token_fired (t : GCancellable) (blocked : list Iteration)
  (last : Iteration) (late : bool) : bool :=
  cancelled t || existsb fires_on_retry blocked || cancelled_cb_in_send last
  || late.

(** The specification's account of the retry loop, for comparison with
    [write_loop]: would-block, ask again; success with n > 0, advance the
    sent offset by n and stop when fully sent; any other error, stop and
    report the total already accepted in this call unless zero bytes were
    accepted, in which case report this error. *)
Fixpoint spec_write_loop (count sent : Z) (its : list Iteration)
  : option Outcome :=
  match its with
  | [] => None
  | it :: rest =>
      if would_block it then spec_write_loop count sent rest
      else if 0 <? n_sent it then
        if sent + n_sent it <? count
        then spec_write_loop count (sent + n_sent it) rest
        else Some (Returned (sent + n_sent it) None)
      else if 0 <? sent then Some (Returned sent None)
      else Some (Returned (-1) (send_error it))
  end.

(** ** Vocabulary of the statements *)

(** The send attempt a turn makes while nothing has been sent yet. *)
Definition attempt_of (count : Z) (cancellable : option GCancellable)
  (it : Iteration) : Event :=
  EvSend 0 count (is_set cancellable) (n_sent it) (send_error it).

(** The record as the writer finds it when it has the lock back after a
    send. *)
Definition after_send (c : option GCancellable) (it : Iteration)
  (wd : WriteData) : WriteData :=
  let wd0 := {| wd_error := wd_error wd; writable := false |} in
  let wd1 := if writable_cb_in_send it
             then reliable_transport_writeable_cb wd0 else wd0 in
  if is_set c && cancelled_cb_in_send it then write_cancelled_cb wd1 else wd1.

(** The only error the record ever holds is the cancellation error. *)
Definition cancel_only (wd : WriteData) : Prop :=
  wd_error wd = None \/ wd_error wd = Some cancelled_error.

(** The record a call starts its loop with. *)
Definition initial_data (c : option GCancellable) : WriteData :=
  match c with
  | Some t => if cancelled t
              then write_cancelled_cb {| wd_error := None; writable := false |}
              else {| wd_error := None; writable := false |}
  | None => {| wd_error := None; writable := false |}
  end.

(** The record as line 446 reads it. *)
Definition final_data (c : option GCancellable) (late : bool) (x : LoopExit)
  : WriteData :=
  if is_set c && late then write_cancelled_cb (exit_data x) else exit_data x.

(** An outcome that is a failure with the given G_IO_ERROR code. *)
Definition fails_with (o : Outcome) (c : GIOErrorEnum) : Prop :=
  exists e, o = Returned (-1) (Some e)
            /\ g_error_matches (Some e) G_IO_ERROR c = true.

(** The specification's account of the offset, for comparison with the loop:
    an attempt at [offset] that accepts [n > 0] moves the offset on by [n],
    so that the next attempt, or the value returned when there is none, is at
    [offset + n]. *)
Fixpoint offsets_advance_by_accepted (attempts : list Event) (returned : Z)
  : bool :=
  match attempts with
  | EvSend offset _ _ n _ :: rest =>
      let next :=
        match rest with
        | EvSend offset' _ _ _ _ :: _ => offset'
        | _ => returned
        end in
      (if 0 <? n then next =? offset + n else true)
      && offsets_advance_by_accepted rest returned
  | _ :: rest => offsets_advance_by_accepted rest returned
  | [] => true
  end.

(** ** Examples

    A stream on stream 1, component 1 of a reliable agent, and a few loop
    turns. *)

Definition example_component : Component :=
  mkComponent 1 (Some 7) [mkSocketSource (mkNiceSocket 3)] None.

Definition example_agent : NiceAgent :=
  mkNiceAgent true [mkStream 1 [example_component]].

Definition example_stream : NiceOutputStream :=
  mkNiceOutputStream false (Some example_agent) 1 1.

Definition broken_pipe : GError :=
  mkGError G_IO_ERROR G_IO_ERROR_BROKEN_PIPE "Invalid stream/component.".

(** The agent answers [n] and sets no error. *)
Definition answers (n : Z) : Iteration := mkIteration n None false false None.

(** The agent says EWOULDBLOCK; the writer parks and is woken by [w]. *)
Definition blocks (w : Wake) : Iteration :=
  mkIteration (-1) (Some would_block_error) false false (Some w).

(** The agent fails with [e]. *)
Definition fails (e : GError) : Iteration :=
  mkIteration (-1) (Some e) false false None.

Definition example_can_send : PseudoTcpSocket -> bool := fun _ => true.
Definition example_condition_check : GSocket -> Z -> Z := fun _ _ => 0.

(** * Properties *)

(** ** Integer conversions *)

Lemma to_gsize_small (z : Z) : 0 <= z < 2 ^ 64 -> to_gsize z = z.
Proof. intros H. unfold to_gsize. now apply Z.mod_small. Qed.

Lemma to_gssize_small (z : Z) : 0 <= z <= G_MAXSSIZE -> to_gssize z = z.
Proof.
  unfold to_gssize, G_MAXSSIZE. intros H.
  rewrite Z.mod_small by lia.
  destruct (z <? 2 ^ 63) eqn:E; [reflexivity|].
  apply Z.ltb_ge in E. lia.
Qed.

Lemma to_gsize_to_gssize (z : Z) : 0 <= z < 2 ^ 64 -> to_gsize (to_gssize z) = z.
Proof.
  intros H. unfold to_gssize, to_gsize.
  rewrite (Z.mod_small z) by lia.
  destruct (z <? 2 ^ 63).
  - now apply Z.mod_small.
  - symmetry. apply (Z.mod_unique _ _ (-1)); lia.
Qed.

(** ** The retry loop *)

Lemma send_attempts_app (l1 l2 : list Event) :
  send_attempts (l1 ++ l2) = send_attempts l1 ++ send_attempts l2.
Proof. unfold send_attempts. apply filter_app. Qed.

Lemma write_loop_cons (count : Z) (c : option GCancellable) (wd : WriteData)
  (len : Z) (it : Iteration) (rest : list Iteration) :
  write_loop count c wd len (it :: rest) =
  let attempt :=
    EvSend len (to_gsize (count - len)) (is_set c) (n_sent it) (send_error it) in
  let wd2 := after_send c it wd in
  if would_block it then
    if negb (writable wd2) && negb (is_set (wd_error wd2)) then
      match wake it with
      | None => None
      | Some w =>
          loop_again count
            (mkLoopExit (wake_callback c w wd2) len None [attempt; EvCondWait])
            (write_loop count c (wake_callback c w wd2) len rest)
      end
    else
      loop_again count (mkLoopExit wd2 len None [attempt])
        (write_loop count c wd2 len rest)
  else if 0 <? n_sent it then
    loop_again count
      (mkLoopExit wd2 (to_gssize count) (send_error it) [attempt])
      (write_loop count c wd2 (to_gssize count) rest)
  else Some (mkLoopExit wd2 (n_sent it) (send_error it) [attempt]).
Proof. reflexivity. Qed.

Lemma cancel_only_cancelled (wd : WriteData) :
  cancel_only wd -> cancel_only (write_cancelled_cb wd).
Proof.
  unfold cancel_only, write_cancelled_cb. cbn.
  intros [-> | ->]; auto.
Qed.

Lemma cancel_only_after_send (c : option GCancellable) (it : Iteration)
  (wd : WriteData) : cancel_only wd -> cancel_only (after_send c it wd).
Proof.
  intros H. unfold after_send.
  destruct (is_set c && cancelled_cb_in_send it);
    [apply cancel_only_cancelled|];
    destruct (writable_cb_in_send it); exact H.
Qed.

Lemma cancel_only_wake (c : option GCancellable) (w : Wake) (wd : WriteData) :
  cancel_only wd -> cancel_only (wake_callback c w wd).
Proof.
  intros H. destruct w; cbn; auto.
  destruct (is_set c); auto using cancel_only_cancelled.
Qed.

(** A loop at offset 0 that comes to an end does so on the first turn that is
    not EWOULDBLOCK; every turn up to there made one send attempt on the whole
    buffer. *)
Lemma write_loop_inv (count : Z) (c : option GCancellable) :
  0 < count < 2 ^ 64 ->
  forall (its : list Iteration) (wd : WriteData) (x : LoopExit),
    write_loop count c wd 0 its = Some x ->
    exists pre last rest,
      its = pre ++ last :: rest
      /\ Forall (fun it => would_block it = true) pre
      /\ would_block last = false
      /\ exit_len x = (if 0 <? n_sent last then to_gssize count else n_sent last)
      /\ exit_error x = send_error last
      /\ send_attempts (exit_log x) = map (attempt_of count c) (pre ++ [last]).
Proof.
  intros Hc. induction its as [|it its IH]; intros wd x H; [discriminate|].
  rewrite write_loop_cons in H. cbv zeta in H.
  rewrite Z.sub_0_r, (to_gsize_small count) in H by lia.
  set (wd2 := after_send c it wd) in H.
  assert (Hz : (to_gsize 0 <? count) = true)
    by (apply Z.ltb_lt; unfold to_gsize; rewrite Z.mod_0_l; lia).
  destruct (would_block it) eqn:Hwb.
  - assert (again : forall wd' log,
               send_attempts log = [attempt_of count c it] ->
               loop_again count (mkLoopExit wd' 0 None log)
                 (write_loop count c wd' 0 its) = Some x ->
               exists pre last rest,
                 it :: its = pre ++ last :: rest
                 /\ Forall (fun it => would_block it = true) pre
                 /\ would_block last = false
                 /\ exit_len x
                    = (if 0 <? n_sent last then to_gssize count else n_sent last)
                 /\ exit_error x = send_error last
                 /\ send_attempts (exit_log x)
                    = map (attempt_of count c) (pre ++ [last])).
    { intros wd' log Hlog Hl. unfold loop_again in Hl. cbn [exit_len] in Hl.
      rewrite Hz in Hl.
      destruct (write_loop count c wd' 0 its) as [x0|] eqn:E; [|discriminate].
      injection Hl as <-. cbn [exit_len exit_error exit_log exit_data].
      destruct (IH _ _ E)
        as (pre & last & rest & -> & Hpre & Hlast & Hlen & Herr & Hs).
      exists (it :: pre), last, rest. repeat split; auto.
      rewrite send_attempts_app, Hlog, Hs. reflexivity. }
    destruct (negb (writable wd2) && negb (is_set (wd_error wd2))).
    + destruct (wake it) as [w|]; [|discriminate].
      refine (again _ _ _ H). reflexivity.
    + refine (again _ _ _ H). reflexivity.
  - exists [], it, its.
    assert (Hx : x = mkLoopExit wd2
                   (if 0 <? n_sent it then to_gssize count else n_sent it)
                   (send_error it) [attempt_of count c it]).
    { destruct (0 <? n_sent it).
      - unfold loop_again in H. cbn [exit_len] in H.
        rewrite to_gsize_to_gssize, Z.ltb_irrefl in H by lia.
        now injection H as <-.
      - now injection H as <-. }
    subst x. cbn [exit_len exit_error exit_log app].
    repeat split; auto.
Qed.

(** Conversely the loop does come to an end when every EWOULDBLOCK turn is
    followed by a wake-up and a turn with another answer is in the script;
    that turn decides how it ends. *)
Lemma write_loop_run (count : Z) (c : option GCancellable) :
  0 < count < 2 ^ 64 ->
  forall (blocked : list Iteration) (last : Iteration) (rest : list Iteration)
         (wd : WriteData),
    Forall retried blocked ->
    would_block last = false ->
    exists x,
      write_loop count c wd 0 (blocked ++ last :: rest) = Some x
      /\ exit_len x = (if 0 <? n_sent last then to_gssize count else n_sent last)
      /\ exit_error x = send_error last
      /\ send_attempts (exit_log x) = map (attempt_of count c) (blocked ++ [last])
      /\ (cancel_only wd -> cancel_only (exit_data x)).
Proof.
  intros Hc blocked last rest. induction blocked as [|it blocked IH];
    intros wd Hb Hl; cbn [app]; rewrite write_loop_cons; cbv zeta;
    rewrite Z.sub_0_r, (to_gsize_small count) by lia.
  - rewrite Hl.
    exists (mkLoopExit (after_send c last wd)
              (if 0 <? n_sent last then to_gssize count else n_sent last)
              (send_error last) [attempt_of count c last]).
    cbn [exit_len exit_error exit_log exit_data].
    repeat split; auto using cancel_only_after_send.
    destruct (0 <? n_sent last); [|reflexivity].
    unfold loop_again. cbn [exit_len].
    now rewrite to_gsize_to_gssize, Z.ltb_irrefl by lia.
  - inversion Hb as [|? ? [Hwb Hw] Hb']; subst. rewrite Hwb.
    assert (Hz : (to_gsize 0 <? count) = true)
      by (apply Z.ltb_lt; unfold to_gsize; rewrite Z.mod_0_l; lia).
    set (wd2 := after_send c it wd).
    assert (H2 : cancel_only wd -> cancel_only wd2)
      by apply cancel_only_after_send.
    unfold loop_again. cbn [exit_len]. rewrite Hz.
    destruct (negb (writable wd2) && negb (is_set (wd_error wd2))).
    + destruct (wake it) as [w|]; [|congruence].
      destruct (IH (wake_callback c w wd2) Hb' Hl)
        as (x & -> & Hlen & Herr & Hs & Hco).
      eexists. split; [reflexivity|]. cbn [exit_len exit_error exit_log exit_data].
      repeat split; auto using cancel_only_wake.
      rewrite send_attempts_app, Hs. reflexivity.
    + destruct (IH wd2 Hb' Hl) as (x & -> & Hlen & Herr & Hs & Hco).
      eexists. split; [reflexivity|]. cbn [exit_len exit_error exit_log exit_data].
      repeat split; auto.
      rewrite send_attempts_app, Hs. reflexivity.
Qed.

(** ** After the loop *)

Lemma cancel_only_initial (c : option GCancellable) : cancel_only (initial_data c).
Proof.
  unfold cancel_only, initial_data.
  destruct c as [[[]]|]; cbn; auto.
Qed.

Lemma write_open (stream : NiceOutputStream) (agent : NiceAgent) (count : Z)
  (c : option GCancellable) (env : WriteEnv) :
  closed stream = false ->
  agent_ref stream = Some agent ->
  count <> 0 ->
  nice_output_stream_write stream count c env =
  match write_loop count c (initial_data c) 0 (iterations env) with
  | None => None
  | Some x => Some (write_finish c (late_cancel env) x)
  end.
Proof.
  intros Hcl Hag Hc. unfold nice_output_stream_write, g_output_stream_is_closed.
  rewrite Hcl, Hag. apply Z.eqb_neq in Hc. rewrite Hc. reflexivity.
Qed.

Lemma write_finish_events (c : option GCancellable) (late : bool) (x : LoopExit) :
  events (write_finish c late x) =
  [EvWaiterNew]
  ++ (if is_set c then [EvCancellableConnect] else [])
  ++ [EvSignalConnect]
  ++ exit_log x
  ++ [EvSignalDisconnect]
  ++ (if is_set c then [EvCancellableDisconnect] else [])
  ++ [EvWaiterUnref].
Proof. reflexivity. Qed.

Lemma write_finish_attempts (c : option GCancellable) (late : bool) (x : LoopExit) :
  send_attempts (events (write_finish c late x)) = send_attempts (exit_log x).
Proof.
  rewrite write_finish_events. rewrite !send_attempts_app.
  destruct (is_set c); cbn; now rewrite app_nil_r.
Qed.

Lemma write_finish_success (c : option GCancellable) (late : bool) (x : LoopExit) :
  0 < exit_len x ->
  exit_error x = None ->
  outcome (write_finish c late x) = Returned (exit_len x) None.
Proof.
  intros Hl He. unfold write_finish. cbn [outcome]. rewrite He.
  assert (E0 : (exit_len x =? 0) = false) by (apply Z.eqb_neq; lia).
  assert (E1 : (exit_len x =? -1) = false) by (apply Z.eqb_neq; lia).
  rewrite E0, !andb_false_r, E0, E1. reflexivity.
Qed.

Lemma write_finish_failure (c : option GCancellable) (late : bool) (x : LoopExit)
  (e : GError) :
  exit_len x = -1 ->
  exit_error x = Some e ->
  outcome (write_finish c late x) = Returned (-1) (Some e).
Proof.
  intros Hl He. unfold write_finish. cbn [outcome]. rewrite He, Hl.
  cbn [is_set negb]. rewrite !andb_false_r. reflexivity.
Qed.

Lemma write_finish_cancelled (t : GCancellable) (late : bool) (x : LoopExit)
  (e : GError) :
  exit_len x = 0 ->
  exit_error x = None ->
  wd_error (final_data (Some t) late x) = Some e ->
  outcome (write_finish (Some t) late x) = ReturnedFreed (-1) e.
Proof.
  intros Hl He Hw. unfold write_finish. fold (final_data (Some t) late x).
  cbn [outcome]. rewrite He, Hl, Hw. reflexivity.
Qed.

(** What a whole call yields on a script whose EWOULDBLOCK turns are all
    followed by a wake-up and whose next turn has another answer. *)
Lemma write_run (stream : NiceOutputStream) (agent : NiceAgent) (count : Z)
  (c : option GCancellable) (blocked : list Iteration) (last : Iteration)
  (rest : list Iteration) (late : bool) :
  closed stream = false ->
  agent_ref stream = Some agent ->
  0 < count < 2 ^ 64 ->
  Forall retried blocked ->
  would_block last = false ->
  exists x,
    nice_output_stream_write stream count c
      (mkWriteEnv (blocked ++ last :: rest) late)
    = Some (write_finish c late x)
    /\ exit_len x = (if 0 <? n_sent last then to_gssize count else n_sent last)
    /\ exit_error x = send_error last
    /\ send_attempts (exit_log x) = map (attempt_of count c) (blocked ++ [last])
    /\ cancel_only (exit_data x).
Proof.
  intros Hcl Hag Hc Hb Hl.
  destruct (write_loop_run count c Hc blocked last rest (initial_data c) Hb Hl)
    as (x & Hx & Hlen & Herr & Hs & Hco).
  exists x. rewrite (write_open stream agent) by (auto; lia).
  cbn [iterations late_cancel]. rewrite Hx.
  repeat split; auto using cancel_only_initial.
Qed.

(** ** The sent offset of the blocking write *)

(** C2, as stated, fails: with a 5-byte buffer and an agent that answers 3 and
    would then answer 2, the call makes a single attempt, at offset 0, and
    returns 5; the offset went from 0 to 5, not to 0 + 3, and the second
    attempt is never made.  The same happens when the agent answers 1, for
    the one message it was handed. *)
Lemma write_offset_jumps_to_count :
  (exists r,
     nice_output_stream_write example_stream 5 None
       (mkWriteEnv [answers 3; answers 2] false) = Some r
     /\ outcome r = Returned 5 None
     /\ send_attempts (events r) = [EvSend 0 5 false 3 None]
     /\ offsets_advance_by_accepted (send_attempts (events r)) 5 = false)
  /\ (exists r,
        nice_output_stream_write example_stream 5 None
          (mkWriteEnv [answers 1] false) = Some r
        /\ outcome r = Returned 5 None
        /\ send_attempts (events r) = [EvSend 0 5 false 1 None]
        /\ offsets_advance_by_accepted (send_attempts (events r)) 5 = false).
Proof. split; eexists; repeat split. Qed.

(** A turn that answers [n > 0] without an error ends the loop: the call
    returns [count]. *)
Lemma write_success_run
  (stream : NiceOutputStream) (agent : NiceAgent) (count : Z)
  (c : option GCancellable) (blocked : list Iteration) (last : Iteration)
  (rest : list Iteration) (late : bool) :
  closed stream = false ->
  agent_ref stream = Some agent ->
  0 < count <= G_MAXSSIZE ->
  Forall retried blocked ->
  0 < n_sent last ->
  send_error last = None ->
  exists r,
    nice_output_stream_write stream count c
      (mkWriteEnv (blocked ++ last :: rest) late) = Some r
    /\ outcome r = Returned count None
    /\ send_attempts (events r)
       = map (attempt_of count c) blocked
         ++ [EvSend 0 count (is_set c) (n_sent last) None].
Proof.
  intros Hcl Hag Hc Hb Hn He.
  assert (Hl : would_block last = false).
  { unfold would_block. replace (n_sent last =? -1) with false; [reflexivity|].
    symmetry. apply Z.eqb_neq. lia. }
  assert (Hc' : 0 < count < 2 ^ 64) by (unfold G_MAXSSIZE in Hc; lia).
  destruct (write_run stream agent count c blocked last rest late
              Hcl Hag Hc' Hb Hl) as (x & Hr & Hlen & Herr & Hs & _).
  apply Z.ltb_lt in Hn. rewrite Hn, to_gssize_small in Hlen by lia.
  rewrite He in Herr.
  exists (write_finish c late x). split; [exact Hr|]. split.
  - rewrite <- Hlen. apply write_finish_success; [lia | exact Herr].
  - rewrite write_finish_attempts, Hs, map_app. cbn [map].
    unfold attempt_of at 2. now rewrite He.
Qed.

(** C2, amended. A send attempt that answers [n > 0] (and sets no error) is
    made on the whole buffer at offset 0, sets the offset to [count] whatever
    [n] is and is the last attempt of the call, which returns [count]; every
    attempt before it was answered EWOULDBLOCK.  In particular, with a 5-byte
    buffer and an agent that answers 3 and would then answer 2, the call
    returns 5 after the first attempt alone. *)
Theorem write_success_sends_whole_buffer
  (stream : NiceOutputStream) (agent : NiceAgent) (count : Z)
  (c : option GCancellable) (blocked : list Iteration) (last : Iteration)
  (rest : list Iteration) (late : bool) :
  closed stream = false ->
  agent_ref stream = Some agent ->
  0 < count <= G_MAXSSIZE ->
  Forall retried blocked ->
  0 < n_sent last ->
  send_error last = None ->
  (exists r,
     nice_output_stream_write stream count c
       (mkWriteEnv (blocked ++ last :: rest) late) = Some r
     /\ outcome r = Returned count None
     /\ send_attempts (events r)
        = map (attempt_of count c) blocked
          ++ [EvSend 0 count (is_set c) (n_sent last) None])
  /\ (exists r,
        nice_output_stream_write stream 5 c
          (mkWriteEnv [answers 3; answers 2] late) = Some r
        /\ outcome r = Returned 5 None
        /\ send_attempts (events r) = [EvSend 0 5 (is_set c) 3 None]).
Proof.
  intros Hcl Hag Hc Hb Hn He. split.
  - now apply (write_success_run stream agent).
  - apply (write_success_run stream agent 5 c [] (answers 3) [answers 2] late);
      auto.
    + unfold G_MAXSSIZE. lia.
    + cbn. lia.
Qed.

Lemma write_success_sends_whole_buffer_witness :
  (exists r,
     nice_output_stream_write example_stream 7 None
       (mkWriteEnv ([blocks WakeWritable] ++ answers 1 :: []) false) = Some r
     /\ outcome r = Returned 7 None
     /\ send_attempts (events r)
        = map (attempt_of 7 None) [blocks WakeWritable]
          ++ [EvSend 0 7 false (n_sent (answers 1)) None])
  /\ (exists r,
        nice_output_stream_write example_stream 5 None
          (mkWriteEnv [answers 3; answers 2] false) = Some r
        /\ outcome r = Returned 5 None
        /\ send_attempts (events r) = [EvSend 0 5 false 3 None]).
Proof.
  apply (write_success_sends_whole_buffer example_stream example_agent 7 None
           [blocks WakeWritable] (answers 1) [] false).
  - reflexivity.
  - reflexivity.
  - unfold G_MAXSSIZE. lia.
  - constructor; [|constructor]. split; [reflexivity | discriminate].
  - cbn. lia.
  - reflexivity.
Defined.

(** ** Closed streams *)

(** C5. On a stream whose closed flag is set, the blocking and the
    non-blocking write fail with G_IO_ERROR_CLOSED (returning -1, without
    touching the agent) for every length, 0 included, every token and every
    behaviour of the agent, and the readiness query answers FALSE. *)
Theorem closed_stream_refuses
  (find_component : NiceAgent -> Z -> Z -> option (Stream * Component))
  (can_send : PseudoTcpSocket -> bool) (condition_check : GSocket -> Z -> Z)
  (stream : NiceOutputStream) :
  closed stream = true ->
  (forall count c env,
     nice_output_stream_write stream count c env
     = Some (mkWriteReturn (Returned (-1) (Some stream_closed_error)) [] None))
  /\ (forall count send,
        nice_output_stream_write_nonblocking find_component can_send
          condition_check stream count send
        = (-1, Some stream_closed_error, []))
  /\ nice_output_stream_is_writable find_component can_send condition_check
       stream = false
  /\ fails_with (Returned (-1) (Some stream_closed_error)) G_IO_ERROR_CLOSED.
Proof.
  intros Hcl. repeat split.
  - intros. unfold nice_output_stream_write, g_output_stream_is_closed.
    now rewrite Hcl.
  - intros. unfold nice_output_stream_write_nonblocking, g_output_stream_is_closed.
    now rewrite Hcl.
  - unfold nice_output_stream_is_writable, g_output_stream_is_closed.
    now rewrite Hcl.
  - exists stream_closed_error. split; reflexivity.
Qed.

Lemma closed_stream_refuses_witness :
  (forall count c env,
     nice_output_stream_write (g_output_stream_close example_stream) count c env
     = Some (mkWriteReturn (Returned (-1) (Some stream_closed_error)) [] None))
  /\ (forall count send,
        nice_output_stream_write_nonblocking agent_find_component
          example_can_send example_condition_check
          (g_output_stream_close example_stream) count send
        = (-1, Some stream_closed_error, []))
  /\ nice_output_stream_is_writable agent_find_component example_can_send
       example_condition_check (g_output_stream_close example_stream) = false
  /\ fails_with (Returned (-1) (Some stream_closed_error)) G_IO_ERROR_CLOSED.
Proof.
  apply (closed_stream_refuses agent_find_component example_can_send
           example_condition_check (g_output_stream_close example_stream)).
  reflexivity.
Defined.

(** ** Zero-length blocking write *)

(** C9. A blocking write of length 0 on an open stream with a live agent
    returns 0 whatever the script of the call is, the empty script included:
    its trace is empty, so no [WriteData] is allocated, nothing is connected
    and no send is attempted. *)
Theorem zero_length_write
  (stream : NiceOutputStream) (agent : NiceAgent) (c : option GCancellable)
  (env : WriteEnv) :
  closed stream = false ->
  agent_ref stream = Some agent ->
  nice_output_stream_write stream 0 c env
  = Some (mkWriteReturn (Returned 0 None) [] None).
Proof.
  intros Hcl Hag. unfold nice_output_stream_write, g_output_stream_is_closed.
  now rewrite Hcl, Hag.
Qed.

Lemma zero_length_write_witness :
  nice_output_stream_write example_stream 0 (Some (mkGCancellable false))
    (mkWriteEnv [] false)
  = Some (mkWriteReturn (Returned 0 None) [] None).
Proof.
  apply (zero_length_write example_stream example_agent); reflexivity.
Defined.

(** ** Readiness query *)

Lemma socket_sources_writable_iff (condition_check : GSocket -> Z -> Z)
  (l : list SocketSource) :
  socket_sources_writable condition_check l = true
  <-> exists ss, In ss l /\ condition_check (fileno (socket ss)) G_IO_OUT <> 0.
Proof.
  induction l as [|a l IH]; cbn [socket_sources_writable].
  - split; [discriminate | intros (ss & [] & _)].
  - destruct (condition_check (fileno (socket a)) G_IO_OUT =? 0) eqn:E;
      cbn [negb].
    + apply Z.eqb_eq in E. rewrite IH. split.
      * intros (ss & Hin & Hss). exists ss. split; [now right | exact Hss].
      * intros (ss & [<- | Hin] & Hss); [congruence | eauto].
    + apply Z.eqb_neq in E. split; [|reflexivity].
      intros _. exists a. split; [now left | exact E].
Qed.

(** C7. On an open stream with a live agent the readiness query answers TRUE
    exactly when the component is found and either the agent is reliable and
    the component has a pseudo-TCP socket that can send, or one of the
    component's socket sources has a socket whose condition check for
    G_IO_OUT is not 0; it answers FALSE when the component is not found. *)
Theorem is_writable_iff
  (find_component : NiceAgent -> Z -> Z -> option (Stream * Component))
  (can_send : PseudoTcpSocket -> bool) (condition_check : GSocket -> Z -> Z)
  (stream : NiceOutputStream) (agent : NiceAgent) :
  closed stream = false ->
  agent_ref stream = Some agent ->
  (nice_output_stream_is_writable find_component can_send condition_check
     stream = true
   <-> exists s component,
         find_component agent (stream_id stream) (component_id stream)
         = Some (s, component)
         /\ ((reliable agent = true
              /\ exists t, tcp component = Some t /\ can_send t = true)
             \/ exists ss, In ss (socket_sources component)
                           /\ condition_check (fileno (socket ss)) G_IO_OUT
                              <> 0))
  /\ (find_component agent (stream_id stream) (component_id stream) = None ->
      nice_output_stream_is_writable find_component can_send condition_check
        stream = false).
Proof.
  intros Hcl Hag. unfold nice_output_stream_is_writable, g_output_stream_is_closed.
  rewrite Hcl, Hag.
  destruct (find_component agent (stream_id stream) (component_id stream))
    as [[s component]|].
  2:{ split; [|reflexivity]. split; [discriminate|].
      intros (s & comp & E & _). discriminate. }
  split; [|discriminate].
  destruct (reliable agent) eqn:Hrel; cbn [andb].
  - destruct (tcp component) as [t|] eqn:Ht.
    + destruct (can_send t) eqn:Hcs.
      * split; [|reflexivity]. intros _. exists s, component.
        split; [reflexivity|]. left. eauto.
      * rewrite socket_sources_writable_iff. split.
        -- intros H. exists s, component. auto.
        -- intros (s' & comp' & E & [[_ (t' & Ht' & Hcs')] | H]);
             injection E as <- <-; [congruence | exact H].
    + rewrite socket_sources_writable_iff. split.
      * intros H. exists s, component. auto.
      * intros (s' & comp' & E & [[_ (t' & Ht' & _)] | H]);
          injection E as <- <-; [congruence | exact H].
  - rewrite socket_sources_writable_iff. split.
    + intros H. exists s, component. auto.
    + intros (s' & comp' & E & [[Hr _] | H]);
        injection E as <- <-; [discriminate | exact H].
Qed.

Lemma is_writable_iff_witness :
  (nice_output_stream_is_writable agent_find_component example_can_send
     example_condition_check example_stream = true
   <-> exists s component,
         agent_find_component example_agent (stream_id example_stream)
           (component_id example_stream) = Some (s, component)
         /\ ((reliable example_agent = true
              /\ exists t, tcp component = Some t /\ example_can_send t = true)
             \/ exists ss, In ss (socket_sources component)
                           /\ example_condition_check (fileno (socket ss))
                                G_IO_OUT <> 0))
  /\ (agent_find_component example_agent (stream_id example_stream)
        (component_id example_stream) = None ->
      nice_output_stream_is_writable agent_find_component example_can_send
        example_condition_check example_stream = false).
Proof.
  apply (is_writable_iff agent_find_component example_can_send
           example_condition_check example_stream example_agent);
    reflexivity.
Defined.

(** ** Non-blocking write *)

(** C6, as stated, fails: on a writable stream a 5-byte non-blocking write
    whose single send is answered 1 (one message sent) returns 5, not the
    agent's answer. *)
Lemma write_nonblocking_not_verbatim :
  nice_output_stream_is_writable agent_find_component example_can_send
    example_condition_check example_stream = true
  /\ nice_output_stream_write_nonblocking agent_find_component
       example_can_send example_condition_check example_stream 5 (1, None)
     = (5, None, [EvSend 0 5 false 1 None])
  /\ fst (fst (nice_output_stream_write_nonblocking agent_find_component
                 example_can_send example_condition_check example_stream 5
                 (1, None)))
     <> fst (1, @None GError).
Proof. repeat split. discriminate. Qed.

(** C6, amended. A non-blocking write of [count > 0] bytes on an open stream
    with a live agent: if the readiness query is false it fails with
    G_IO_ERROR_WOULD_BLOCK without any send attempt; if it is true it makes
    exactly one send attempt, on the whole buffer and without a token, leaves
    in [*error] what that attempt left there, and returns [count] when the
    attempt answered 1 and the attempt's answer unchanged otherwise. *)
Theorem write_nonblocking_single_attempt
  (find_component : NiceAgent -> Z -> Z -> option (Stream * Component))
  (can_send : PseudoTcpSocket -> bool) (condition_check : GSocket -> Z -> Z)
  (stream : NiceOutputStream) (agent : NiceAgent) (count : Z)
  (send : Z * option GError) :
  closed stream = false ->
  agent_ref stream = Some agent ->
  0 < count <= G_MAXSSIZE ->
  (nice_output_stream_is_writable find_component can_send condition_check
     stream = false ->
   nice_output_stream_write_nonblocking find_component can_send
     condition_check stream count send
   = (-1, Some would_block_error, []))
  /\ (nice_output_stream_is_writable find_component can_send condition_check
        stream = true ->
      nice_output_stream_write_nonblocking find_component can_send
        condition_check stream count send
      = ((if fst send =? 1 then count else fst send),
         snd send,
         [EvSend 0 count false (fst send) (snd send)])).
Proof.
  intros Hcl Hag Hc.
  unfold nice_output_stream_write_nonblocking, g_output_stream_is_closed.
  rewrite Hcl, Hag.
  replace (count =? 0) with false by (symmetry; apply Z.eqb_neq; lia).
  rewrite to_gssize_small by lia.
  split; intros ->; reflexivity.
Qed.

Lemma write_nonblocking_single_attempt_witness :
  (nice_output_stream_is_writable agent_find_component example_can_send
     example_condition_check example_stream = false ->
   nice_output_stream_write_nonblocking agent_find_component example_can_send
     example_condition_check example_stream 5 (-1, Some broken_pipe)
   = (-1, Some would_block_error, []))
  /\ (nice_output_stream_is_writable agent_find_component example_can_send
        example_condition_check example_stream = true ->
      nice_output_stream_write_nonblocking agent_find_component
        example_can_send example_condition_check example_stream 5
        (-1, Some broken_pipe)
      = ((if fst (-1, Some broken_pipe) =? 1 then 5
          else fst (-1, Some broken_pipe)),
         snd (-1, Some broken_pipe),
         [EvSend 0 5 false (fst (-1, Some broken_pipe))
            (snd (-1, Some broken_pipe))])).
Proof.
  apply (write_nonblocking_single_attempt agent_find_component
           example_can_send example_condition_check example_stream
           example_agent 5 (-1, Some broken_pipe)).
  - reflexivity.
  - reflexivity.
  - unfold G_MAXSSIZE. lia.
Defined.

(** ** The streams-removed handler *)

Lemma streams_removed_loop_spec (self : NiceOutputStream) (post : list Z) :
  forall (pre : list Z) (i : nat),
    Forall (fun x => x <> 0) pre ->
    exists (called : bool) (j : nat),
      streams_removed_loop self (pre ++ 0 :: post) i
      = Some ((if called then g_output_stream_close self else self), called, j)
      /\ (called = true <-> In (stream_id self) pre)
      /\ (i <= j <= i + List.length pre)%nat
      /\ (forall post',
            streams_removed_loop self (pre ++ 0 :: post') i
            = streams_removed_loop self (pre ++ 0 :: post) i).
Proof.
  induction pre as [|x pre IH]; intros i Hnz; cbn [app streams_removed_loop].
  - exists false, i. cbn. repeat split; try lia; try discriminate; try tauto.
  - inversion Hnz as [|? ? Hx Hpre]; subst.
    replace (x =? 0) with false by (symmetry; now apply Z.eqb_neq).
    destruct (x =? stream_id self) eqn:E.
    + apply Z.eqb_eq in E. exists true, i. cbn [List.length].
      repeat split; try lia. intros _. now left.
    + apply Z.eqb_neq in E.
      destruct (IH (S i) Hpre) as (called & j & Hrun & Hiff & Hj & Hpost).
      exists called, j. cbn [List.length]. repeat split; try lia; auto.
      * intros Hc. right. now apply Hiff.
      * intros [Hin | Hin]; [congruence | now apply Hiff].
Qed.

(** C10. The handler treats the array as zero-terminated.  For an array whose
    first 0 comes after the entries [pre]: it returns, it calls
    [g_output_stream_close] exactly when the stream id of the stream is among
    [pre] (so an open stream ends up closed exactly then), the last index it
    reads is at most that of the first 0, what follows the first 0 does not
    change its result, and a stream whose id is 0 is never closed by it. *)
Theorem streams_removed_zero_terminated
  (self : NiceOutputStream) (pre post : list Z) :
  Forall (fun x => x <> 0) pre ->
  exists (called : bool) (i : nat),
    streams_removed_cb self (pre ++ 0 :: post)
    = Some ((if called then g_output_stream_close self else self), called, i)
    /\ (called = true <-> In (stream_id self) pre)
    /\ (closed self = false ->
        (closed (if called then g_output_stream_close self else self) = true
         <-> In (stream_id self) pre))
    /\ (i <= List.length pre)%nat
    /\ (forall post',
          streams_removed_cb self (pre ++ 0 :: post')
          = streams_removed_cb self (pre ++ 0 :: post))
    /\ (stream_id self = 0 -> called = false).
Proof.
  intros Hnz. unfold streams_removed_cb.
  destruct (streams_removed_loop_spec self post pre 0 Hnz)
    as (called & j & Hrun & Hiff & Hj & Hpost).
  exists called, j.
  split; [exact Hrun|]. split; [exact Hiff|]. split; [|split; [lia|split]].
  - intros Hcl. rewrite <- Hiff. destruct called; cbn; [tauto|].
    rewrite Hcl. tauto.
  - exact Hpost.
  - intros Hz. destruct called; [|reflexivity].
    assert (Hin : In (stream_id self) pre) by now apply Hiff.
    rewrite Forall_forall in Hnz. now elim (Hnz _ Hin).
Qed.

Lemma streams_removed_zero_terminated_witness :
  exists (called : bool) (i : nat),
    streams_removed_cb example_stream ([2; 1] ++ 0 :: [5])
    = Some ((if called then g_output_stream_close example_stream
             else example_stream), called, i)
    /\ (called = true <-> In (stream_id example_stream) [2; 1])
    /\ (closed example_stream = false ->
        (closed (if called then g_output_stream_close example_stream
                 else example_stream) = true
         <-> In (stream_id example_stream) [2; 1]))
    /\ (i <= List.length [2; 1])%nat
    /\ (forall post',
          streams_removed_cb example_stream ([2; 1] ++ 0 :: post')
          = streams_removed_cb example_stream ([2; 1] ++ 0 :: [5]))
    /\ (stream_id example_stream = 0 -> called = false).
Proof.
  apply (streams_removed_zero_terminated example_stream [2; 1] [5]).
  repeat constructor; discriminate.
Defined.

(** ** The closed flag *)

Lemma streams_removed_loop_closed (self : NiceOutputStream) :
  forall (stream_ids : list Z) (i : nat) (self' : NiceOutputStream)
         (called : bool) (j : nat),
    streams_removed_loop self stream_ids i = Some (self', called, j) ->
    closed self = true -> closed self' = true.
Proof.
  induction stream_ids as [|x rest IH]; intros i self' called j H Hcl;
    cbn [streams_removed_loop] in H; [discriminate|].
  destruct (x =? 0); [now injection H as <- _ _|].
  destruct (x =? stream_id self); [now injection H as <- _ _|].
  eapply IH; eauto.
Qed.

Lemma step_closed (self self' : NiceOutputStream) (op : Operation) :
  closed self = true -> step self op = Some self' -> closed self' = true.
Proof.
  intros Hcl H. destruct op; cbn [step] in H;
    try (injection H as <-; cbn; auto; fail).
  - destruct (nice_output_stream_write self count cancellable env);
      [now injection H as <- | discriminate].
  - unfold streams_removed_cb in H.
    destruct (streams_removed_loop self stream_ids 0) as [[[s c] j]|] eqn:E;
      [|discriminate].
    injection H as <-. eapply streams_removed_loop_closed; eauto.
  - injection H as <-.
    unfold nice_output_stream_dispose, g_output_stream_dispose,
      g_output_stream_is_closed. cbn. now rewrite Hcl.
Qed.

Lemma steps_closed (ops : list Operation) :
  forall self self',
    closed self = true -> steps self ops = Some self' -> closed self' = true.
Proof.
  induction ops as [|op ops IH]; intros self self' Hcl H; cbn [steps] in H.
  - now injection H as <-.
  - destruct (step self op) as [s1|] eqn:E; [|discriminate].
    eapply IH; [|exact H]. eapply step_closed; eauto.
Qed.

(** C8. When the streams-removed handler is run on an array whose entries
    before the terminating 0 include the stream id of the stream, the stream
    is closed afterwards; and a stream whose closed flag is set keeps it set
    through every sequence of operations (writes, readiness queries, source
    construction, further notifications, close, loss of the agent,
    disposal). *)
Theorem closed_on_removal_and_for_good
  (self : NiceOutputStream) (pre post : list Z) :
  Forall (fun x => x <> 0) pre ->
  In (stream_id self) pre ->
  (exists self' i,
     streams_removed_cb self (pre ++ 0 :: post) = Some (self', true, i)
     /\ closed self' = true
     /\ step self (OpStreamsRemoved (pre ++ 0 :: post)) = Some self')
  /\ (forall (s s' : NiceOutputStream) (ops : list Operation),
        closed s = true -> steps s ops = Some s' -> closed s' = true).
Proof.
  intros Hnz Hin. split.
  - destruct (streams_removed_loop_spec self post pre 0 Hnz)
      as (called & i & Hrun & Hiff & _).
    assert (called = true) by now apply Hiff. subst called.
    fold (streams_removed_cb self (pre ++ 0 :: post)) in Hrun.
    exists (g_output_stream_close self), i. repeat split; auto.
    cbn [step]. now rewrite Hrun.
  - intros s s' ops. apply steps_closed.
Qed.

Lemma closed_on_removal_and_for_good_witness :
  (exists self' i,
     streams_removed_cb example_stream ([2; 1] ++ 0 :: [])
     = Some (self', true, i)
     /\ closed self' = true
     /\ step example_stream (OpStreamsRemoved ([2; 1] ++ 0 :: []))
        = Some self')
  /\ (forall (s s' : NiceOutputStream) (ops : list Operation),
        closed s = true -> steps s ops = Some s' -> closed s' = true).
Proof.
  apply (closed_on_removal_and_for_good example_stream [2; 1] []).
  - repeat constructor; discriminate.
  - right. left. reflexivity.
Defined.

(** * Further properties of the blocking write *)

Lemma waits_app (l1 l2 : list Event) : waits (l1 ++ l2) = waits l1 ++ waits l2.
Proof. unfold waits. apply filter_app. Qed.

Lemma write_finish_waits (c : option GCancellable) (late : bool) (x : LoopExit) :
  waits (events (write_finish c late x)) = waits (exit_log x).
Proof.
  rewrite write_finish_events. rewrite !waits_app.
  destruct (is_set c); cbn; now rewrite app_nil_r.
Qed.

Lemma gsize_zero_lt (count : Z) : 0 < count -> (to_gsize 0 <? count) = true.
Proof. intros H. apply Z.ltb_lt. unfold to_gsize. rewrite Z.mod_0_l; lia. Qed.

(** One unfolding of the loop at offset 0. *)
Ltac loop_step Hc :=
  rewrite write_loop_cons; cbv zeta;
  rewrite Z.sub_0_r,
    (to_gsize_small _ (conj (Z.lt_le_incl _ _ (proj1 Hc)) (proj2 Hc))).

Ltac loop_step_in Hc H :=
  rewrite write_loop_cons in H; cbv zeta in H;
  rewrite Z.sub_0_r,
    (to_gsize_small _ (conj (Z.lt_le_incl _ _ (proj1 Hc)) (proj2 Hc))) in H.

(** The loop leaves nothing in the trace but its sends and its waits. *)
Lemma write_loop_log (count : Z) (c : option GCancellable) :
  forall (its : list Iteration) (wd : WriteData) (len : Z) (x : LoopExit),
    write_loop count c wd len its = Some x ->
    forallb loop_event (exit_log x) = true.
Proof.
  induction its as [|it its IH]; intros wd len x H; [discriminate|].
  rewrite write_loop_cons in H. cbv zeta in H.
  assert (again : forall here wd' len',
             forallb loop_event (exit_log here) = true ->
             loop_again count here (write_loop count c wd' len' its) = Some x ->
             forallb loop_event (exit_log x) = true).
  { intros here wd' len' Hh Hl. unfold loop_again in Hl.
    destruct (to_gsize (exit_len here) <? count).
    - destruct (write_loop count c wd' len' its) as [x0|] eqn:E; [|discriminate].
      injection Hl as <-. cbn [exit_log]. rewrite forallb_app, Hh.
      apply (IH _ _ _ E).
    - now injection Hl as <-. }
  destruct (would_block it).
  - destruct (negb _ && negb _).
    + destruct (wake it); [|discriminate]. eapply again; [|exact H]. reflexivity.
    + eapply again; [|exact H]. reflexivity.
  - destruct (0 <? n_sent it).
    + eapply again; [|exact H]. reflexivity.
    + now injection H as <-.
Qed.

(** The writer parks at most once per EWOULDBLOCK answer. *)
Lemma write_loop_waits_le (count : Z) (c : option GCancellable) :
  0 < count < 2 ^ 64 ->
  forall (blocked : list Iteration) (last : Iteration) (rest : list Iteration)
         (wd : WriteData) (x : LoopExit),
    Forall (fun it => would_block it = true) blocked ->
    would_block last = false ->
    write_loop count c wd 0 (blocked ++ last :: rest) = Some x ->
    (List.length (waits (exit_log x)) <= List.length blocked)%nat.
Proof.
  intros Hc blocked last rest. induction blocked as [|it blocked IH];
    intros wd x Hb Hl H; cbn [app] in H; loop_step_in Hc H.
  - rewrite Hl in H. destruct (0 <? n_sent last).
    + unfold loop_again in H. cbn [exit_len] in H.
      rewrite to_gsize_to_gssize, Z.ltb_irrefl in H by lia.
      injection H as <-. cbn. lia.
    + injection H as <-. cbn. lia.
  - inversion Hb as [|? ? Hwb Hb']; subst. rewrite Hwb in H.
    unfold loop_again in H. cbn [exit_len] in H.
    rewrite (gsize_zero_lt count) in H by lia.
    destruct (negb _ && negb _).
    + destruct (wake it) as [w|]; [|discriminate].
      destruct (write_loop count c _ 0 (blocked ++ last :: rest)) as [x0|] eqn:E;
        [|discriminate].
      injection H as <-. cbn [exit_log].
      specialize (IH _ _ Hb' Hl E). unfold waits in *.
      cbn [app filter is_wait List.length] in *. lia.
    + destruct (write_loop count c _ 0 (blocked ++ last :: rest)) as [x0|] eqn:E;
        [|discriminate].
      injection H as <-. cbn [exit_log].
      specialize (IH _ _ Hb' Hl E). unfold waits in *.
      cbn [app filter is_wait List.length] in *. lia.
Qed.

(** A loop that has no reason to park: either the record already holds an
    error, or the writable callback ran during every send that was answered
    EWOULDBLOCK.  It ends at the first other answer, whatever the script says
    about wake-ups, and its trace is its sends. *)
Lemma write_loop_awake (count : Z) (c : option GCancellable) :
  0 < count < 2 ^ 64 ->
  forall (blocked : list Iteration) (last : Iteration) (rest : list Iteration)
         (wd : WriteData),
    Forall (fun it => would_block it = true) blocked ->
    is_set (wd_error wd) = true
    \/ Forall (fun it => writable_cb_in_send it = true) blocked ->
    would_block last = false ->
    exists x,
      write_loop count c wd 0 (blocked ++ last :: rest) = Some x
      /\ exit_len x = (if 0 <? n_sent last then to_gssize count else n_sent last)
      /\ exit_error x = send_error last
      /\ exit_log x = map (attempt_of count c) (blocked ++ [last]).
Proof.
  intros Hc blocked last rest. induction blocked as [|it blocked IH];
    intros wd Hb Hawake Hl; cbn [app]; loop_step Hc.
  - rewrite Hl.
    exists (mkLoopExit (after_send c last wd)
              (if 0 <? n_sent last then to_gssize count else n_sent last)
              (send_error last) [attempt_of count c last]).
    cbn [exit_len exit_error exit_log]. repeat split.
    destruct (0 <? n_sent last); [|reflexivity].
    unfold loop_again. cbn [exit_len].
    now rewrite to_gsize_to_gssize, Z.ltb_irrefl by lia.
  - inversion Hb as [|? ? Hwb Hb']; subst. rewrite Hwb.
    assert (Hnp : negb (writable (after_send c it wd))
                  && negb (is_set (wd_error (after_send c it wd))) = false).
    { unfold after_send. destruct Hawake as [He | Hw].
      - destruct (wd_error wd) eqn:E; [|discriminate].
        destruct (is_set c && cancelled_cb_in_send it),
          (writable_cb_in_send it); cbn; rewrite ?E; cbn;
          now rewrite ?andb_false_r.
      - inversion Hw as [|? ? Hw1 _]; subst. rewrite Hw1.
        destruct (is_set c && cancelled_cb_in_send it); reflexivity. }
    rewrite Hnp.
    assert (Hawake' : is_set (wd_error (after_send c it wd)) = true
                      \/ Forall (fun it => writable_cb_in_send it = true) blocked).
    { destruct Hawake as [He | Hw].
      - left. unfold after_send. destruct (wd_error wd) eqn:E; [|discriminate].
        destruct (is_set c && cancelled_cb_in_send it),
          (writable_cb_in_send it); cbn; now rewrite ?E.
      - right. now inversion Hw. }
    destruct (IH (after_send c it wd) Hb' Hawake' Hl)
      as (x & Hx & Hlen & Herr & Hlog).
    unfold loop_again. cbn [exit_len]. rewrite (gsize_zero_lt count) by lia.
    rewrite Hx. eexists. split; [reflexivity|].
    cbn [exit_len exit_error exit_log]. repeat split; auto.
    rewrite Hlog. reflexivity.
Qed.

(** Without a token the record never holds an error. *)
Lemma write_loop_parked (count : Z) :
  0 < count < 2 ^ 64 ->
  forall (blocked : list Iteration) (it : Iteration) (rest : list Iteration)
         (wd : WriteData),
    wd_error wd = None ->
    Forall retried blocked ->
    would_block it = true ->
    writable_cb_in_send it = false ->
    wake it = None ->
    write_loop count None wd 0 (blocked ++ it :: rest) = None.
Proof.
  intros Hc blocked it rest. induction blocked as [|b blocked IH];
    intros wd He Hb Hwb Hw Hk; cbn [app]; loop_step Hc.
  - rewrite Hwb. unfold after_send. rewrite Hw. cbn. rewrite He, Hk. reflexivity.
  - inversion Hb as [|? ? [Hwb1 Hk1] Hb']; subst. rewrite Hwb1.
    assert (He2 : wd_error (after_send None b wd) = None).
    { unfold after_send. cbn. destruct (writable_cb_in_send b); exact He. }
    unfold loop_again. cbn [exit_len]. rewrite (gsize_zero_lt count) by lia.
    destruct (negb _ && negb _).
    + destruct (wake b) as [w|]; [|congruence].
      rewrite IH; auto. destruct w; cbn; exact He2.
    + rewrite IH; auto.
Qed.

Lemma retried_blocked (its : list Iteration) :
  Forall retried its -> Forall (fun it => would_block it = true) its.
Proof. apply Forall_impl. now intros it [H _]. Qed.

Lemma send_attempts_map (count : Z) (c : option GCancellable)
  (l : list Iteration) :
  send_attempts (map (attempt_of count c) l) = map (attempt_of count c) l.
Proof.
  unfold send_attempts.
  induction l as [|a l IH]; cbn [map filter attempt_of is_send];
    [reflexivity | now rewrite IH].
Qed.

Lemma waits_map (count : Z) (c : option GCancellable) (l : list Iteration) :
  waits (map (attempt_of count c) l) = [].
Proof.
  unfold waits.
  induction l as [|a l IH]; cbn [map filter attempt_of is_wait];
    [reflexivity | exact IH].
Qed.

(** X1. Every send attempt of a blocking write that returns is made on the
    whole buffer, at offset 0, with the caller's token; the attempts are the
    turns of the script up to the first answer other than EWOULDBLOCK, which
    is the last attempt. *)
Theorem write_attempts_on_whole_buffer
  (stream : NiceOutputStream) (agent : NiceAgent) (count : Z)
  (c : option GCancellable) (env : WriteEnv) (r : WriteReturn) :
  closed stream = false ->
  agent_ref stream = Some agent ->
  0 < count <= G_MAXSIZE ->
  nice_output_stream_write stream count c env = Some r ->
  exists pre last rest,
    iterations env = pre ++ last :: rest
    /\ Forall (fun it => would_block it = true) pre
    /\ would_block last = false
    /\ send_attempts (events r) = map (attempt_of count c) (pre ++ [last]).
Proof.
  intros Hcl Hag Hc Hr.
  assert (Hc' : 0 < count < 2 ^ 64) by (unfold G_MAXSIZE in Hc; lia).
  rewrite (write_open stream agent) in Hr by (auto; lia).
  destruct (write_loop count c (initial_data c) 0 (iterations env))
    as [x|] eqn:Hx; [|discriminate].
  injection Hr as <-.
  destruct (write_loop_inv count c Hc' _ _ _ Hx)
    as (pre & last & rest & Hits & Hpre & Hlast & _ & _ & Hs).
  exists pre, last, rest. rewrite write_finish_attempts. auto.
Qed.

Lemma write_attempts_on_whole_buffer_witness :
  exists r,
    nice_output_stream_write example_stream 5 None
      (mkWriteEnv [blocks WakeWritable; answers 1; answers 1] false) = Some r
    /\ exists pre last rest,
         iterations (mkWriteEnv [blocks WakeWritable; answers 1; answers 1]
                       false)
         = pre ++ last :: rest
         /\ Forall (fun it => would_block it = true) pre
         /\ would_block last = false
         /\ send_attempts (events r) = map (attempt_of 5 None) (pre ++ [last]).
Proof.
  eexists. split; [reflexivity|].
  apply (write_attempts_on_whole_buffer example_stream example_agent 5 None
           (mkWriteEnv [blocks WakeWritable; answers 1; answers 1] false)).
  - reflexivity.
  - reflexivity.
  - unfold G_MAXSIZE. lia.
  - reflexivity.
Defined.

(** X2. When the agent answers EWOULDBLOCK N times (the writer being woken
    each time it parks) and then something else, the blocking write returns
    after exactly N + 1 send attempts and at most N waits. *)
Theorem write_retries_once_per_would_block
  (stream : NiceOutputStream) (agent : NiceAgent) (count : Z)
  (c : option GCancellable) (blocked : list Iteration) (last : Iteration)
  (rest : list Iteration) (late : bool) :
  closed stream = false ->
  agent_ref stream = Some agent ->
  0 < count <= G_MAXSIZE ->
  Forall retried blocked ->
  would_block last = false ->
  exists r,
    nice_output_stream_write stream count c
      (mkWriteEnv (blocked ++ last :: rest) late) = Some r
    /\ List.length (send_attempts (events r)) = S (List.length blocked)
    /\ (List.length (waits (events r)) <= List.length blocked)%nat.
Proof.
  intros Hcl Hag Hc Hb Hl.
  assert (Hc' : 0 < count < 2 ^ 64) by (unfold G_MAXSIZE in Hc; lia).
  rewrite (write_open stream agent) by (auto; lia). cbn [iterations late_cancel].
  destruct (write_loop_run count c Hc' blocked last rest (initial_data c) Hb Hl)
    as (x & Hx & _ & _ & Hs & _).
  rewrite Hx. eexists. split; [reflexivity|]. split.
  - rewrite write_finish_attempts, Hs, length_map, length_app. cbn. lia.
  - rewrite write_finish_waits.
    apply (write_loop_waits_le count c Hc' blocked last rest (initial_data c));
      auto using retried_blocked.
Qed.

Lemma write_retries_once_per_would_block_witness :
  exists r,
    nice_output_stream_write example_stream 5 None
      (mkWriteEnv ([blocks WakeWritable; blocks WakeSpurious]
                   ++ answers 1 :: []) false) = Some r
    /\ List.length (send_attempts (events r))
       = S (List.length [blocks WakeWritable; blocks WakeSpurious])
    /\ (List.length (waits (events r))
        <= List.length [blocks WakeWritable; blocks WakeSpurious])%nat.
Proof.
  apply (write_retries_once_per_would_block example_stream example_agent 5
           None [blocks WakeWritable; blocks WakeSpurious] (answers 1) []
           false).
  - reflexivity.
  - reflexivity.
  - unfold G_MAXSIZE. lia.
  - repeat constructor; discriminate.
  - reflexivity.
Defined.

(** X3. No wake-up is lost: when the reliable-transport-writable callback
    runs while the writer is inside the send that is answered EWOULDBLOCK,
    the writer does not park but asks again at once.  A call in which this
    happens on every such turn returns without a single wait, whatever would
    or would not have woken it. *)
Theorem write_no_lost_wakeup
  (stream : NiceOutputStream) (agent : NiceAgent) (count : Z)
  (c : option GCancellable) (blocked : list Iteration) (last : Iteration)
  (rest : list Iteration) (late : bool) :
  closed stream = false ->
  agent_ref stream = Some agent ->
  0 < count <= G_MAXSIZE ->
  Forall (fun it => would_block it = true) blocked ->
  Forall (fun it => writable_cb_in_send it = true) blocked ->
  would_block last = false ->
  exists r,
    nice_output_stream_write stream count c
      (mkWriteEnv (blocked ++ last :: rest) late) = Some r
    /\ waits (events r) = []
    /\ send_attempts (events r) = map (attempt_of count c) (blocked ++ [last]).
Proof.
  intros Hcl Hag Hc Hb Hw Hl.
  assert (Hc' : 0 < count < 2 ^ 64) by (unfold G_MAXSIZE in Hc; lia).
  rewrite (write_open stream agent) by (auto; lia). cbn [iterations late_cancel].
  destruct (write_loop_awake count c Hc' blocked last rest (initial_data c)
              Hb (or_intror Hw) Hl) as (x & Hx & _ & _ & Hlog).
  rewrite Hx. eexists. split; [reflexivity|].
  rewrite write_finish_waits, write_finish_attempts, Hlog.
  split; [apply waits_map | apply send_attempts_map].
Qed.

Lemma write_no_lost_wakeup_witness :
  exists r,
    nice_output_stream_write example_stream 5 None
      (mkWriteEnv ([mkIteration (-1) (Some would_block_error) true false None]
                   ++ answers 1 :: []) false) = Some r
    /\ waits (events r) = []
    /\ send_attempts (events r)
       = map (attempt_of 5 None)
           ([mkIteration (-1) (Some would_block_error) true false None]
            ++ [answers 1]).
Proof.
  apply (write_no_lost_wakeup example_stream example_agent 5 None
           [mkIteration (-1) (Some would_block_error) true false None]
           (answers 1) [] false).
  - reflexivity.
  - reflexivity.
  - unfold G_MAXSIZE. lia.
  - repeat constructor.
  - repeat constructor.
  - reflexivity.
Defined.

(** X4. A blocking write whose token is already cancelled when it is
    connected never parks: it keeps asking the agent and returns at the first
    answer other than EWOULDBLOCK, with no wake-up needed. *)
Theorem write_cancelled_token_never_parks
  (stream : NiceOutputStream) (agent : NiceAgent) (count : Z)
  (t : GCancellable) (blocked : list Iteration) (last : Iteration)
  (rest : list Iteration) (late : bool) :
  closed stream = false ->
  agent_ref stream = Some agent ->
  0 < count <= G_MAXSIZE ->
  cancelled t = true ->
  Forall (fun it => would_block it = true) blocked ->
  would_block last = false ->
  exists r,
    nice_output_stream_write stream count (Some t)
      (mkWriteEnv (blocked ++ last :: rest) late) = Some r
    /\ waits (events r) = []
    /\ List.length (send_attempts (events r)) = S (List.length blocked).
Proof.
  intros Hcl Hag Hc Ht Hb Hl.
  assert (Hc' : 0 < count < 2 ^ 64) by (unfold G_MAXSIZE in Hc; lia).
  rewrite (write_open stream agent) by (auto; lia). cbn [iterations late_cancel].
  assert (He : is_set (wd_error (initial_data (Some t))) = true)
    by (unfold initial_data; rewrite Ht; reflexivity).
  destruct (write_loop_awake count (Some t) Hc' blocked last rest
              (initial_data (Some t)) Hb (or_introl He) Hl)
    as (x & Hx & _ & _ & Hlog).
  rewrite Hx. eexists. split; [reflexivity|].
  rewrite write_finish_waits, write_finish_attempts, Hlog. split.
  - apply waits_map.
  - rewrite send_attempts_map, length_map, length_app. cbn. lia.
Qed.

Lemma write_cancelled_token_never_parks_witness :
  exists r,
    nice_output_stream_write example_stream 5 (Some (mkGCancellable true))
      (mkWriteEnv ([mkIteration (-1) (Some would_block_error) false false None]
                   ++ fails cancelled_error :: []) false) = Some r
    /\ waits (events r) = []
    /\ List.length (send_attempts (events r))
       = S (List.length
              [mkIteration (-1) (Some would_block_error) false false None]).
Proof.
  apply (write_cancelled_token_never_parks example_stream example_agent 5
           (mkGCancellable true)
           [mkIteration (-1) (Some would_block_error) false false None]
           (fails cancelled_error) [] false).
  - reflexivity.
  - reflexivity.
  - unfold G_MAXSIZE. lia.
  - reflexivity.
  - repeat constructor.
  - reflexivity.
Defined.

(** X5. A blocking write without a token does not return once the agent has
    answered EWOULDBLOCK on a turn during which the writable callback did not
    run and after which nothing wakes the writer: whatever the agent would
    have answered later is never asked for. *)
Theorem write_parks_for_good
  (stream : NiceOutputStream) (agent : NiceAgent) (count : Z)
  (blocked : list Iteration) (it : Iteration) (rest : list Iteration)
  (late : bool) :
  closed stream = false ->
  agent_ref stream = Some agent ->
  0 < count <= G_MAXSIZE ->
  Forall retried blocked ->
  would_block it = true ->
  writable_cb_in_send it = false ->
  wake it = None ->
  nice_output_stream_write stream count None
    (mkWriteEnv (blocked ++ it :: rest) late) = None.
Proof.
  intros Hcl Hag Hc Hb Hwb Hw Hk.
  assert (Hc' : 0 < count < 2 ^ 64) by (unfold G_MAXSIZE in Hc; lia).
  rewrite (write_open stream agent) by (auto; lia). cbn [iterations].
  now rewrite (write_loop_parked count Hc' blocked it rest).
Qed.

Lemma write_parks_for_good_witness :
  nice_output_stream_write example_stream 5 None
    (mkWriteEnv ([blocks WakeWritable]
                 ++ mkIteration (-1) (Some would_block_error) false false None
                 :: [answers 1]) false) = None.
Proof.
  apply (write_parks_for_good example_stream example_agent 5
           [blocks WakeWritable]
           (mkIteration (-1) (Some would_block_error) false false None)
           [answers 1] false).
  - reflexivity.
  - reflexivity.
  - unfold G_MAXSIZE. lia.
  - repeat constructor; discriminate.
  - reflexivity.
  - reflexivity.
  - reflexivity.
Defined.

Lemma write_finish_no_token (late : bool) (x : LoopExit) :
  outcome (write_finish None late x) =
  if negb (Bool.eqb (is_set (exit_error x)) (exit_len x =? -1)) then Aborted
  else if exit_len x =? 0 then Aborted
  else Returned (exit_len x) (exit_error x).
Proof. reflexivity. Qed.

(** X6. What the two assertions let through.  In a blocking write without a
    token the answer that ends the loop is returned (as [count] when it is
    positive) exactly when it is positive without an error, -1 with an error,
    or below -1 without an error; on every other answer (0, or -1 without an
    error, or a non-negative answer with an error) the call dies on an
    assertion. *)
Theorem write_assertions_check_answer
  (stream : NiceOutputStream) (agent : NiceAgent) (count : Z)
  (blocked : list Iteration) (last : Iteration) (rest : list Iteration)
  (late : bool) :
  closed stream = false ->
  agent_ref stream = Some agent ->
  0 < count <= G_MAXSSIZE ->
  Forall retried blocked ->
  would_block last = false ->
  exists r,
    nice_output_stream_write stream count None
      (mkWriteEnv (blocked ++ last :: rest) late) = Some r
    /\ outcome r
       = if answer_passes last
         then Returned (if 0 <? n_sent last then count else n_sent last)
                (send_error last)
         else Aborted.
Proof.
  intros Hcl Hag Hc Hb Hl.
  assert (Hc' : 0 < count < 2 ^ 64) by (unfold G_MAXSSIZE in Hc; lia).
  destruct (write_run stream agent count None blocked last rest late
              Hcl Hag Hc' Hb Hl) as (x & Hr & Hlen & Herr & _).
  exists (write_finish None late x). split; [exact Hr|].
  rewrite write_finish_no_token, Hlen, Herr. unfold answer_passes.
  rewrite (to_gssize_small count) by lia.
  destruct (0 <? n_sent last) eqn:Hp.
  - apply Z.ltb_lt in Hp.
    replace (count =? -1) with false by (symmetry; apply Z.eqb_neq; lia).
    replace (count =? 0) with false by (symmetry; apply Z.eqb_neq; lia).
    replace (n_sent last =? -1) with false by (symmetry; apply Z.eqb_neq; lia).
    replace (n_sent last <? -1) with false by (symmetry; apply Z.ltb_ge; lia).
    destruct (send_error last); reflexivity.
  - apply Z.ltb_ge in Hp. destruct (n_sent last =? -1) eqn:Hm.
    + apply Z.eqb_eq in Hm.
      replace (n_sent last =? 0) with false by (symmetry; apply Z.eqb_neq; lia).
      replace (n_sent last <? -1) with false by (symmetry; apply Z.ltb_ge; lia).
      destruct (send_error last); reflexivity.
    + apply Z.eqb_neq in Hm. destruct (n_sent last =? 0) eqn:Hz.
      * apply Z.eqb_eq in Hz.
        replace (n_sent last <? -1) with false
          by (symmetry; apply Z.ltb_ge; lia).
        destruct (send_error last); reflexivity.
      * apply Z.eqb_neq in Hz.
        replace (n_sent last <? -1) with true
          by (symmetry; apply Z.ltb_lt; lia).
        destruct (send_error last); reflexivity.
Qed.

Lemma write_assertions_check_answer_witness :
  exists r,
    nice_output_stream_write example_stream 5 None
      (mkWriteEnv ([blocks WakeWritable] ++ answers 0 :: []) false) = Some r
    /\ outcome r
       = if answer_passes (answers 0)
         then Returned (if 0 <? n_sent (answers 0) then 5
                        else n_sent (answers 0))
                (send_error (answers 0))
         else Aborted.
Proof.
  apply (write_assertions_check_answer example_stream example_agent 5
           [blocks WakeWritable] (answers 0) [] false).
  - reflexivity.
  - reflexivity.
  - unfold G_MAXSSIZE. lia.
  - repeat constructor; discriminate.
  - reflexivity.
Defined.

Lemma ref_count_after_app (l1 l2 : list Event) :
  forall rc, ref_count_after (l1 ++ l2) rc
             = ref_count_after l2 (ref_count_after l1 rc).
Proof.
  induction l1 as [|e l1 IH]; intros rc; [reflexivity|].
  destruct e; cbn [app ref_count_after]; apply IH.
Qed.

Lemma ref_count_after_loop (log : list Event) :
  forallb loop_event log = true ->
  forall rc, ref_count_after log rc = rc.
Proof.
  induction log as [|e log IH]; intros H rc; [reflexivity|].
  cbn [forallb] in H. apply andb_prop in H. destruct H as [He Hlog].
  destruct e; try discriminate; cbn [ref_count_after]; now apply IH.
Qed.

(** X7. The WriteData of a blocking write is released down to a count of 0,
    and so freed, by the time the call returns when a token was supplied; when
    none was, its count is still 1 and the record is never freed: the count
    starts at 3 whether or not there is a third owner. *)
Theorem write_data_freed_only_with_token
  (stream : NiceOutputStream) (agent : NiceAgent) (count : Z)
  (c : option GCancellable) (env : WriteEnv) (r : WriteReturn) :
  closed stream = false ->
  agent_ref stream = Some agent ->
  count <> 0 ->
  nice_output_stream_write stream count c env = Some r ->
  ref_count_after (events r) None = Some (if is_set c then 0 else 1).
Proof.
  intros Hcl Hag Hc Hr.
  rewrite (write_open stream agent) in Hr by auto.
  destruct (write_loop count c (initial_data c) 0 (iterations env))
    as [x|] eqn:Hx; [|discriminate].
  injection Hr as <-.
  pose proof (write_loop_log count c _ _ _ _ Hx) as Hlog.
  rewrite write_finish_events.
  destruct (is_set c); cbn [app ref_count_after];
    rewrite ref_count_after_app, (ref_count_after_loop _ Hlog); reflexivity.
Qed.

Lemma write_data_freed_only_with_token_witness :
  exists r,
    nice_output_stream_write example_stream 5 None
      (mkWriteEnv [blocks WakeWritable; answers 1] false) = Some r
    /\ ref_count_after (events r) None
       = Some (if is_set (@None GCancellable) then 0 else 1).
Proof.
  eexists. split; [reflexivity|].
  apply (write_data_freed_only_with_token example_stream example_agent 5 None
           (mkWriteEnv [blocks WakeWritable; answers 1] false)).
  - reflexivity.
  - reflexivity.
  - discriminate.
  - reflexivity.
Defined.

(** * Further properties of the stream *)

(** X8. Once the agent has been finalised, so that the weak reference gives
    NULL, a stream that is still open fails every blocking and non-blocking
    write with G_IO_ERROR_CLOSED and the message about the agent, for every
    length, 0 included, and without any send, wait or allocation; the
    readiness query is FALSE and a new source has no child but the caller's
    token. *)
Theorem agent_gone_refuses
  (find_component : NiceAgent -> Z -> Z -> option (Stream * Component))
  (can_send : PseudoTcpSocket -> bool) (condition_check : GSocket -> Z -> Z)
  (stream : NiceOutputStream) :
  closed stream = false ->
  agent_ref stream = None ->
  (forall count c env,
     nice_output_stream_write stream count c env
     = Some (mkWriteReturn (Returned (-1) (Some agent_finalised_error)) []
               None))
  /\ (forall count send,
        nice_output_stream_write_nonblocking find_component can_send
          condition_check stream count send
        = (-1, Some agent_finalised_error, []))
  /\ nice_output_stream_is_writable find_component can_send condition_check
       stream = false
  /\ (forall c,
        nice_output_stream_create_source find_component stream c
        = match c with Some t => [t] | None => [] end)
  /\ fails_with (Returned (-1) (Some agent_finalised_error)) G_IO_ERROR_CLOSED.
Proof.
  intros Hcl Hag. repeat split.
  - intros. unfold nice_output_stream_write, g_output_stream_is_closed.
    now rewrite Hcl, Hag.
  - intros. unfold nice_output_stream_write_nonblocking, g_output_stream_is_closed.
    now rewrite Hcl, Hag.
  - unfold nice_output_stream_is_writable, g_output_stream_is_closed.
    now rewrite Hcl, Hag.
  - intros. unfold nice_output_stream_create_source, g_output_stream_is_closed.
    now rewrite Hcl, Hag.
  - exists agent_finalised_error. split; reflexivity.
Qed.

Lemma agent_gone_refuses_witness :
  step example_stream OpAgentFinalised
  = Some (mkNiceOutputStream false None 1 1)
  /\ (forall count c env,
        nice_output_stream_write (mkNiceOutputStream false None 1 1)
          count c env
        = Some (mkWriteReturn (Returned (-1) (Some agent_finalised_error)) []
                  None))
  /\ (forall count send,
        nice_output_stream_write_nonblocking agent_find_component
          example_can_send example_condition_check
          (mkNiceOutputStream false None 1 1) count send
        = (-1, Some agent_finalised_error, []))
  /\ nice_output_stream_is_writable agent_find_component example_can_send
       example_condition_check (mkNiceOutputStream false None 1 1)
     = false
  /\ (forall c,
        nice_output_stream_create_source agent_find_component
          (mkNiceOutputStream false None 1 1) c
        = match c with Some t => [t] | None => [] end)
  /\ fails_with (Returned (-1) (Some agent_finalised_error)) G_IO_ERROR_CLOSED.
Proof.
  split; [reflexivity|].
  apply (agent_gone_refuses agent_find_component example_can_send
           example_condition_check (mkNiceOutputStream false None 1 1));
    reflexivity.
Defined.

(** X9. The non-blocking write never waits and never allocates: its trace is
    a single send on the whole buffer, without a token, exactly when the
    stream is open, the agent alive, the length not 0 and the stream
    writable, and is empty otherwise.  In particular a zero-length write on
    an open stream with a live agent returns 0 without asking whether the
    stream is writable. *)
Theorem write_nonblocking_trace
  (find_component : NiceAgent -> Z -> Z -> option (Stream * Component))
  (can_send : PseudoTcpSocket -> bool) (condition_check : GSocket -> Z -> Z)
  (stream : NiceOutputStream) (count : Z) (send : Z * option GError) :
  snd (nice_output_stream_write_nonblocking find_component can_send
         condition_check stream count send)
  = (if negb (closed stream) && is_set (agent_ref stream)
        && negb (count =? 0)
        && nice_output_stream_is_writable find_component can_send
             condition_check stream
     then [EvSend 0 count false (fst send) (snd send)]
     else [])
  /\ (closed stream = false -> agent_ref stream <> None -> count = 0 ->
      nice_output_stream_write_nonblocking find_component can_send
        condition_check stream count send = (0, None, [])).
Proof.
  unfold nice_output_stream_write_nonblocking, g_output_stream_is_closed.
  split.
  - destruct (closed stream); [reflexivity|].
    destruct (agent_ref stream); [|reflexivity].
    destruct (count =? 0); [reflexivity|].
    cbn [negb andb is_set].
    destruct (nice_output_stream_is_writable _ _ _ _); reflexivity.
  - intros -> Hag ->. destruct (agent_ref stream); [reflexivity | congruence].
Qed.

(** X10. On a writable open stream the blocking and the non-blocking write
    agree on an agent that answers 1 (the message was sent) or fails with an
    error other than EWOULDBLOCK: the blocking write whose first send gets
    that answer returns the same length and the same error as the
    non-blocking write. *)
Theorem write_agrees_with_nonblocking
  (find_component : NiceAgent -> Z -> Z -> option (Stream * Component))
  (can_send : PseudoTcpSocket -> bool) (condition_check : GSocket -> Z -> Z)
  (stream : NiceOutputStream) (agent : NiceAgent) (count : Z)
  (c : option GCancellable) (it : Iteration) (rest : list Iteration)
  (late : bool) :
  closed stream = false ->
  agent_ref stream = Some agent ->
  0 < count <= G_MAXSSIZE ->
  nice_output_stream_is_writable find_component can_send condition_check
    stream = true ->
  (n_sent it = 1 /\ send_error it = None)
  \/ (n_sent it = -1 /\ send_error it <> None /\ would_block it = false) ->
  exists r,
    nice_output_stream_write stream count c (mkWriteEnv (it :: rest) late)
    = Some r
    /\ outcome r
       = Returned
           (fst (fst (nice_output_stream_write_nonblocking find_component
                        can_send condition_check stream count
                        (n_sent it, send_error it))))
           (snd (fst (nice_output_stream_write_nonblocking find_component
                        can_send condition_check stream count
                        (n_sent it, send_error it)))).
Proof.
  intros Hcl Hag Hc Hw Hans.
  assert (Hc' : 0 < count < 2 ^ 64) by (unfold G_MAXSSIZE in Hc; lia).
  assert (Hl : would_block it = false).
  { destruct Hans as [[Hn _] | (_ & _ & H)]; [|exact H].
    unfold would_block. now rewrite Hn. }
  destruct (write_run stream agent count c [] it rest late
              Hcl Hag Hc' (Forall_nil _) Hl) as (x & Hr & Hlen & Herr & _).
  cbn [app] in Hr. exists (write_finish c late x). split; [exact Hr|].
  unfold nice_output_stream_write_nonblocking, g_output_stream_is_closed.
  rewrite Hcl, Hag, Hw.
  replace (count =? 0) with false by (symmetry; apply Z.eqb_neq; lia).
  cbn [negb fst snd]. rewrite (to_gssize_small count) in * by lia.
  destruct Hans as [[Hn He] | (Hn & He & _)]; rewrite Hn in *; cbn in Hlen |- *.
  - rewrite He in *. rewrite <- Hlen.
    apply write_finish_success; [lia | exact Herr].
  - destruct (send_error it) as [e|] eqn:Hee; [|congruence].
    now apply write_finish_failure.
Qed.

Lemma write_agrees_with_nonblocking_witness :
  exists r,
    nice_output_stream_write example_stream 5 None
      (mkWriteEnv (fails broken_pipe :: []) false) = Some r
    /\ outcome r
       = Returned
           (fst (fst (nice_output_stream_write_nonblocking
                        agent_find_component example_can_send
                        example_condition_check example_stream 5
                        (n_sent (fails broken_pipe),
                         send_error (fails broken_pipe)))))
           (snd (fst (nice_output_stream_write_nonblocking
                        agent_find_component example_can_send
                        example_condition_check example_stream 5
                        (n_sent (fails broken_pipe),
                         send_error (fails broken_pipe))))).
Proof.
  apply (write_agrees_with_nonblocking agent_find_component example_can_send
           example_condition_check example_stream example_agent 5 None
           (fails broken_pipe) [] false).
  - reflexivity.
  - reflexivity.
  - unfold G_MAXSSIZE. lia.
  - reflexivity.
  - right. repeat split; discriminate.
Defined.

(** X11. A new source always has the caller's token, when there is one, as
    its first child, and never more than one further child: the component's
    own writable token, added only when the stream is open, the agent alive
    and the component found. *)
Theorem create_source_children
  (find_component : NiceAgent -> Z -> Z -> option (Stream * Component))
  (stream : NiceOutputStream) (c : option GCancellable) :
  exists extra,
    nice_output_stream_create_source find_component stream c
    = match c with Some t => [t] | None => [] end ++ extra
    /\ (List.length extra <= 1)%nat
    /\ (extra <> [] ->
        closed stream = false
        /\ exists agent s component t,
             agent_ref stream = Some agent
             /\ find_component agent (stream_id stream) (component_id stream)
                = Some (s, component)
             /\ tcp_writable_cancellable component = Some t
             /\ extra = [t]).
Proof.
  unfold nice_output_stream_create_source, g_output_stream_is_closed.
  assert (none : exists extra,
             match c with Some t => [t] | None => [] end
             = match c with Some t => [t] | None => [] end ++ extra
             /\ (List.length extra <= 1)%nat
             /\ (extra <> [] ->
                 closed stream = false
                 /\ exists agent s component t,
                      agent_ref stream = Some agent
                      /\ find_component agent (stream_id stream)
                           (component_id stream) = Some (s, component)
                      /\ tcp_writable_cancellable component = Some t
                      /\ extra = [t])).
  { exists []. rewrite app_nil_r. split; [reflexivity|].
    split; [cbn; lia|]. intros H. now elim H. }
  destruct (closed stream) eqn:Hcl; [exact none|].
  destruct (agent_ref stream) as [agent|] eqn:Hag; [|exact none].
  destruct (find_component agent (stream_id stream) (component_id stream))
    as [[s component]|] eqn:Hf; [|exact none].
  destruct (tcp_writable_cancellable component) as [t|] eqn:Ht; [|exact none].
  exists [t]. split; [reflexivity|]. split; [cbn; lia|].
  intros _. split; [reflexivity|]. exists agent, s, component, t. auto.
Qed.

(** * Further properties of the streams-removed handler *)

(** X12. The handler stops at the first entry equal to the stream id: when
    no entry before it is 0, it closes the stream there, having read nothing
    beyond it, so that the array need not even be terminated. *)
Theorem streams_removed_stops_at_match
  (self : NiceOutputStream) (pre post : list Z) :
  stream_id self <> 0 ->
  Forall (fun x => x <> 0 /\ x <> stream_id self) pre ->
  streams_removed_cb self (pre ++ stream_id self :: post)
  = Some (g_output_stream_close self, true, List.length pre).
Proof.
  intros Hsid Hpre. unfold streams_removed_cb.
  assert (H : forall i,
             streams_removed_loop self (pre ++ stream_id self :: post) i
             = Some (g_output_stream_close self, true,
                     (i + List.length pre)%nat)).
  { induction pre as [|x pre IH]; intros i; cbn [app streams_removed_loop].
    - replace (stream_id self =? 0) with false
        by (symmetry; now apply Z.eqb_neq).
      rewrite Z.eqb_refl. cbn. now rewrite Nat.add_0_r.
    - inversion Hpre as [|? ? [Hx0 Hxs] Hpre']; subst.
      replace (x =? 0) with false by (symmetry; now apply Z.eqb_neq).
      replace (x =? stream_id self) with false
        by (symmetry; now apply Z.eqb_neq).
      rewrite (IH Hpre'). cbn [List.length]. now rewrite Nat.add_succ_comm. }
  apply H.
Qed.

Lemma streams_removed_stops_at_match_witness :
  streams_removed_cb example_stream ([2; 3] ++ stream_id example_stream :: [])
  = Some (g_output_stream_close example_stream, true, List.length [2; 3]).
Proof.
  apply (streams_removed_stops_at_match example_stream [2; 3] []).
  - discriminate.
  - repeat constructor; discriminate.
Defined.

(** X13. On an array with no 0 and no entry equal to the stream id the
    handler reads past the end of the array: it has no defined result. *)
Theorem streams_removed_needs_terminator
  (self : NiceOutputStream) (stream_ids : list Z) :
  Forall (fun x => x <> 0 /\ x <> stream_id self) stream_ids ->
  streams_removed_cb self stream_ids = None.
Proof.
  intros H. unfold streams_removed_cb. generalize 0%nat.
  induction stream_ids as [|x l IH]; intros i; cbn [streams_removed_loop];
    [reflexivity|].
  inversion H as [|? ? [Hx0 Hxs] H']; subst.
  replace (x =? 0) with false by (symmetry; now apply Z.eqb_neq).
  replace (x =? stream_id self) with false by (symmetry; now apply Z.eqb_neq).
  now apply IH.
Qed.

Lemma streams_removed_needs_terminator_witness :
  streams_removed_cb example_stream [2; 3] = None.
Proof.
  apply (streams_removed_needs_terminator example_stream [2; 3]).
  repeat constructor; discriminate.
Defined.

Lemma close_closed (self : NiceOutputStream) :
  closed self = true -> g_output_stream_close self = self.
Proof. destruct self as [cl a s c]. cbn. now intros ->. Qed.

Lemma streams_removed_loop_result (self : NiceOutputStream) :
  forall (stream_ids : list Z) (i : nat) (self' : NiceOutputStream)
         (called : bool) (j : nat),
    streams_removed_loop self stream_ids i = Some (self', called, j) ->
    self' = (if called then g_output_stream_close self else self).
Proof.
  induction stream_ids as [|x l IH]; intros i self' called j H;
    cbn [streams_removed_loop] in H; [discriminate|].
  destruct (x =? 0); [now injection H as <- <- _|].
  destruct (x =? stream_id self); [now injection H as <- <- _|].
  eauto.
Qed.

Lemma streams_removed_loop_same_id (self other : NiceOutputStream) :
  stream_id other = stream_id self ->
  forall (stream_ids : list Z) (i : nat) (self' : NiceOutputStream)
         (called : bool) (j : nat),
    streams_removed_loop self stream_ids i = Some (self', called, j) ->
    streams_removed_loop other stream_ids i
    = Some ((if called then g_output_stream_close other else other), called, j).
Proof.
  intros Hid. induction stream_ids as [|x l IH]; intros i self' called j H;
    cbn [streams_removed_loop] in *; [discriminate|].
  rewrite Hid. destruct (x =? 0); [now injection H as _ <- <-|].
  destruct (x =? stream_id self); [now injection H as _ <- <-|].
  eauto.
Qed.

(** X14. The notification is idempotent and changes nothing but the closed
    flag: delivering the same array again leaves the stream as the first
    delivery left it, a stream that is already closed is left as it is, and
    the agent reference and both ids are always kept. *)
Theorem streams_removed_idempotent
  (self self' : NiceOutputStream) (stream_ids : list Z) (called : bool)
  (i : nat) :
  streams_removed_cb self stream_ids = Some (self', called, i) ->
  streams_removed_cb self' stream_ids = Some (self', called, i)
  /\ (closed self = true -> self' = self)
  /\ agent_ref self' = agent_ref self
  /\ stream_id self' = stream_id self
  /\ component_id self' = component_id self.
Proof.
  unfold streams_removed_cb. intros H.
  pose proof (streams_removed_loop_result _ _ _ _ _ _ H) as Hs.
  assert (Hid : stream_id self' = stream_id self)
    by (subst self'; destruct called; reflexivity).
  repeat split.
  - rewrite (streams_removed_loop_same_id self self' Hid _ _ _ _ _ H).
    destruct called; [|reflexivity].
    rewrite close_closed; [reflexivity|]. subst self'. reflexivity.
  - intros Hcl. subst self'. destruct called; [now apply close_closed|reflexivity].
  - subst self'. destruct called; reflexivity.
  - exact Hid.
  - subst self'. destruct called; reflexivity.
Qed.

Lemma streams_removed_idempotent_witness :
  streams_removed_cb (g_output_stream_close example_stream) [2; 1; 0]
  = Some (g_output_stream_close example_stream, true, 1%nat)
  /\ (closed example_stream = true
      -> g_output_stream_close example_stream = example_stream)
  /\ agent_ref (g_output_stream_close example_stream) = agent_ref example_stream
  /\ stream_id (g_output_stream_close example_stream) = stream_id example_stream
  /\ component_id (g_output_stream_close example_stream)
     = component_id example_stream.
Proof.
  apply (streams_removed_idempotent example_stream
           (g_output_stream_close example_stream) [2; 1; 0] true 1%nat).
  reflexivity.
Defined.

(** X15. After a streams-removed notification that names the stream, every
    blocking and non-blocking write fails with G_IO_ERROR_CLOSED without
    touching the agent, and the readiness query answers FALSE. *)
Theorem removed_stream_refuses
  (find_component : NiceAgent -> Z -> Z -> option (Stream * Component))
  (can_send : PseudoTcpSocket -> bool) (condition_check : GSocket -> Z -> Z)
  (self : NiceOutputStream) (pre post : list Z) :
  Forall (fun x => x <> 0) pre ->
  In (stream_id self) pre ->
  exists self' i,
    streams_removed_cb self (pre ++ 0 :: post) = Some (self', true, i)
    /\ (forall count c env,
          nice_output_stream_write self' count c env
          = Some (mkWriteReturn (Returned (-1) (Some stream_closed_error)) []
                    None))
    /\ (forall count send,
          nice_output_stream_write_nonblocking find_component can_send
            condition_check self' count send
          = (-1, Some stream_closed_error, []))
    /\ nice_output_stream_is_writable find_component can_send condition_check
         self' = false.
Proof.
  intros Hnz Hin. unfold streams_removed_cb.
  destruct (streams_removed_loop_spec self post pre 0 Hnz)
    as (called & i & Hrun & Hiff & _).
  assert (called = true) by now apply Hiff. subst called.
  exists (g_output_stream_close self), i. split; [exact Hrun|].
  repeat split; intros; reflexivity.
Qed.

Lemma removed_stream_refuses_witness :
  exists self' i,
    streams_removed_cb example_stream ([2; 1] ++ 0 :: []) = Some (self', true, i)
    /\ (forall count c env,
          nice_output_stream_write self' count c env
          = Some (mkWriteReturn (Returned (-1) (Some stream_closed_error)) []
                    None))
    /\ (forall count send,
          nice_output_stream_write_nonblocking agent_find_component
            example_can_send example_condition_check self' count send
          = (-1, Some stream_closed_error, []))
    /\ nice_output_stream_is_writable agent_find_component example_can_send
         example_condition_check self' = false.
Proof.
  apply (removed_stream_refuses agent_find_component example_can_send
           example_condition_check example_stream [2; 1] []).
  - repeat constructor; discriminate.
  - right. left. reflexivity.
Defined.

(** * Construction, properties and identity *)

(** X16. Setting one of the three properties and reading it back gives the
    value that was set; every other property, and the closed flag, is as it
    was before; and setting a property of any other id changes nothing. *)
Theorem property_set_then_get (self : NiceOutputStream) (p : Property) :
  installed p ->
  nice_output_stream_get_property
    (fst (nice_output_stream_set_property self p)) (prop_id_of p) = Some p
  /\ (forall prop_id,
        prop_id <> prop_id_of p ->
        nice_output_stream_get_property
          (fst (nice_output_stream_set_property self p)) prop_id
        = nice_output_stream_get_property self prop_id)
  /\ closed (fst (nice_output_stream_set_property self p)) = closed self
  /\ (forall prop_id,
        nice_output_stream_set_property self (PropInvalid prop_id)
        = (self, false)).
Proof.
  intros Hp. destruct p; try contradiction; cbn; repeat split; auto;
    intros prop_id Hne; unfold nice_output_stream_get_property;
    unfold PROP_AGENT, PROP_STREAM_ID, PROP_COMPONENT_ID in *; cbn;
    destruct (prop_id =? 1) eqn:E1; try reflexivity;
    destruct (prop_id =? 2) eqn:E2; try reflexivity;
    destruct (prop_id =? 3) eqn:E3; try reflexivity;
    try (apply Z.eqb_eq in E1; congruence);
    try (apply Z.eqb_eq in E2; congruence);
    try (apply Z.eqb_eq in E3; congruence).
Qed.

Lemma property_set_then_get_witness :
  nice_output_stream_get_property
    (fst (nice_output_stream_set_property example_stream (PropStreamId 9)))
    (prop_id_of (PropStreamId 9)) = Some (PropStreamId 9)
  /\ (forall prop_id,
        prop_id <> prop_id_of (PropStreamId 9) ->
        nice_output_stream_get_property
          (fst (nice_output_stream_set_property example_stream
                  (PropStreamId 9))) prop_id
        = nice_output_stream_get_property example_stream prop_id)
  /\ closed (fst (nice_output_stream_set_property example_stream
                    (PropStreamId 9))) = closed example_stream
  /\ (forall prop_id,
        nice_output_stream_set_property example_stream (PropInvalid prop_id)
        = (example_stream, false)).
Proof.
  apply (property_set_then_get example_stream (PropStreamId 9)). exact I.
Defined.

(** X17. [nice_output_stream_new] answers NULL exactly when the agent is
    NULL or one of the ids is below 1.  Otherwise the stream it returns is
    the initialised instance with the three properties set, it is open, it
    reads back the agent and both ids, and the streams-removed handler was
    connected when the agent was set. *)
Theorem new_sets_three_properties
  (agent : option NiceAgent) (stream_id component_id : Z) :
  (nice_output_stream_new agent stream_id component_id = None
   <-> agent = None \/ stream_id < 1 \/ component_id < 1)
  /\ (forall self,
        nice_output_stream_new agent stream_id component_id = Some self ->
        self
        = fst (nice_output_stream_set_property
                 (fst (nice_output_stream_set_property
                         (fst (nice_output_stream_set_property
                                 nice_output_stream_init (PropAgent agent)))
                         (PropStreamId stream_id)))
                 (PropComponentId component_id))
        /\ snd (nice_output_stream_set_property nice_output_stream_init
                  (PropAgent agent)) = true
        /\ closed self = false
        /\ nice_output_stream_get_property self PROP_AGENT
           = Some (PropAgent agent)
        /\ nice_output_stream_get_property self PROP_STREAM_ID
           = Some (PropStreamId stream_id)
        /\ nice_output_stream_get_property self PROP_COMPONENT_ID
           = Some (PropComponentId component_id)).
Proof.
  unfold nice_output_stream_new. split.
  - destruct agent as [a|]; [|split; auto].
    destruct (1 <=? stream_id) eqn:Es; cbn [negb].
    + destruct (1 <=? component_id) eqn:Ec; cbn [negb].
      * apply Z.leb_le in Es, Ec. split; [discriminate|].
        intros [H | [H | H]]; [discriminate | lia | lia].
      * apply Z.leb_gt in Ec. split; auto.
    + apply Z.leb_gt in Es. split; auto.
  - intros self H. destruct agent as [a|]; [|discriminate].
    destruct (1 <=? stream_id); [|discriminate].
    destruct (1 <=? component_id); [|discriminate].
    cbn [negb] in H. injection H as <-. repeat split.
Qed.

Lemma step_identity (self self' : NiceOutputStream) (op : Operation) :
  step self op = Some self' ->
  stream_id self' = stream_id self
  /\ component_id self' = component_id self
  /\ (agent_ref self' = agent_ref self \/ agent_ref self' = None).
Proof.
  intros H. destruct op; cbn [step] in H;
    try (injection H as <-; cbn; auto; fail).
  - destruct (nice_output_stream_write self count cancellable env);
      [injection H as <-; auto | discriminate].
  - unfold streams_removed_cb in H.
    destruct (streams_removed_loop self stream_ids 0) as [[[s c] j]|] eqn:E;
      [|discriminate].
    injection H as <-.
    rewrite (streams_removed_loop_result _ _ _ _ _ _ E).
    destruct c; cbn; auto.
  - injection H as <-.
    unfold nice_output_stream_dispose, g_output_stream_dispose,
      g_output_stream_is_closed. cbn. destruct (closed self); cbn; auto.
Qed.

(** X18. The identity of a stream never changes: through every sequence of
    operations the stream id and the component id stay what they were, and
    the agent reference is either what it was or gone. *)
Theorem identity_kept (ops : list Operation) :
  forall self self',
    steps self ops = Some self' ->
    stream_id self' = stream_id self
    /\ component_id self' = component_id self
    /\ (agent_ref self' = agent_ref self \/ agent_ref self' = None).
Proof.
  induction ops as [|op ops IH]; intros self self' H; cbn [steps] in H.
  - injection H as <-. auto.
  - destruct (step self op) as [s1|] eqn:E; [|discriminate].
    destruct (step_identity _ _ _ E) as (H1 & H2 & H3).
    destruct (IH _ _ H) as (H4 & H5 & H6).
    repeat split; try congruence.
    destruct H6 as [H6 | H6]; [|now right].
    destruct H3 as [H3 | H3]; [left | right]; congruence.
Qed.

Lemma identity_kept_witness :
  stream_id (g_output_stream_close (nice_output_stream_dispose example_stream))
  = stream_id example_stream
  /\ component_id
       (g_output_stream_close (nice_output_stream_dispose example_stream))
     = component_id example_stream
  /\ (agent_ref
        (g_output_stream_close (nice_output_stream_dispose example_stream))
      = agent_ref example_stream
      \/ agent_ref
           (g_output_stream_close (nice_output_stream_dispose example_stream))
         = None).
Proof.
  apply (identity_kept [OpIsWritable; OpDispose; OpStreamsRemoved [1; 0]]
           example_stream).
  reflexivity.
Defined.

(** * A token that never fires *)

Lemma after_send_quiet (c : option GCancellable) (it : Iteration)
  (wd : WriteData) :
  token_quiet it = true -> wd_error wd = None ->
  wd_error (after_send c it wd) = None.
Proof.
  unfold token_quiet, after_send. intros Hq He.
  apply andb_prop in Hq. destruct Hq as [Hq _].
  apply negb_true_iff in Hq. rewrite Hq, andb_false_r.
  destruct (writable_cb_in_send it); exact He.
Qed.

Lemma write_loop_quiet (count : Z) (c : option GCancellable) :
  0 < count < 2 ^ 64 ->
  forall (blocked : list Iteration) (last : Iteration) (rest : list Iteration)
         (wd : WriteData) (x : LoopExit),
    wd_error wd = None ->
    Forall (fun it => would_block it = true) blocked ->
    would_block last = false ->
    forallb token_quiet (blocked ++ [last]) = true ->
    write_loop count c wd 0 (blocked ++ last :: rest) = Some x ->
    wd_error (exit_data x) = None.
Proof.
  intros Hc blocked last rest. induction blocked as [|it blocked IH];
    intros wd x He Hb Hl Hq H; cbn [app] in H, Hq; loop_step_in Hc H;
    cbn [forallb] in Hq; apply andb_prop in Hq; destruct Hq as [Hq1 Hq].
  - rewrite Hl in H.
    assert (Hx : exit_data x = after_send c last wd).
    { destruct (0 <? n_sent last).
      - unfold loop_again in H. cbn [exit_len] in H.
        rewrite to_gsize_to_gssize, Z.ltb_irrefl in H by lia.
        now injection H as <-.
      - now injection H as <-. }
    rewrite Hx. now apply after_send_quiet.
  - inversion Hb as [|? ? Hwb Hb']; subst. rewrite Hwb in H.
    pose proof (after_send_quiet c it wd Hq1 He) as He2.
    unfold loop_again in H. cbn [exit_len] in H.
    rewrite (gsize_zero_lt count) in H by lia.
    destruct (negb _ && negb _).
    + destruct (wake it) as [w|] eqn:Hw; [|discriminate].
      destruct (write_loop count c _ 0 (blocked ++ last :: rest)) as [x0|] eqn:E;
        [|discriminate].
      injection H as <-. cbn [exit_data].
      apply (IH (wake_callback c w (after_send c it wd)) x0); auto.
      unfold token_quiet in Hq1. rewrite Hw in Hq1.
      destruct w; cbn; try exact He2.
      now rewrite andb_false_r in Hq1.
    + destruct (write_loop count c _ 0 (blocked ++ last :: rest)) as [x0|] eqn:E;
        [|discriminate].
      injection H as <-. cbn [exit_data]. eapply IH; eauto.
Qed.

Lemma write_finish_unfired (t : GCancellable) (x : LoopExit) :
  wd_error (exit_data x) = None ->
  outcome (write_finish (Some t) false x) =
  if negb (Bool.eqb (is_set (exit_error x)) (exit_len x =? -1)) then Aborted
  else if exit_len x =? 0 then Aborted
  else Returned (exit_len x) (exit_error x).
Proof.
  intros He. unfold write_finish. cbn [is_set andb outcome]. rewrite He.
  reflexivity.
Qed.

(** X19. A token that is never cancelled changes nothing in what a blocking
    write returns: with a token that is not cancelled at the start and does
    not fire during the call, the call returns as it does without a token on
    the same answers of the agent. *)
Theorem write_unfired_token_is_neutral
  (stream : NiceOutputStream) (agent : NiceAgent) (count : Z)
  (t : GCancellable) (blocked : list Iteration) (last : Iteration)
  (rest : list Iteration) :
  closed stream = false ->
  agent_ref stream = Some agent ->
  0 < count <= G_MAXSIZE ->
  cancelled t = false ->
  Forall retried blocked ->
  would_block last = false ->
  forallb token_quiet (blocked ++ [last]) = true ->
  exists r r',
    nice_output_stream_write stream count (Some t)
      (mkWriteEnv (blocked ++ last :: rest) false) = Some r
    /\ nice_output_stream_write stream count None
         (mkWriteEnv (blocked ++ last :: rest) false) = Some r'
    /\ outcome r = outcome r'.
Proof.
  intros Hcl Hag Hc Ht Hb Hl Hq.
  assert (Hc' : 0 < count < 2 ^ 64) by (unfold G_MAXSIZE in Hc; lia).
  rewrite !(write_open stream agent) by (auto; lia).
  cbn [iterations late_cancel].
  destruct (write_loop_run count (Some t) Hc' blocked last rest
              (initial_data (Some t)) Hb Hl) as (x & Hx & Hlen & Herr & _).
  destruct (write_loop_run count None Hc' blocked last rest
              (initial_data None) Hb Hl) as (x' & Hx' & Hlen' & Herr' & _).
  rewrite Hx, Hx'. eexists. eexists. split; [reflexivity|].
  split; [reflexivity|].
  rewrite write_finish_no_token, write_finish_unfired.
  - now rewrite Hlen, Hlen', Herr, Herr'.
  - apply (write_loop_quiet count (Some t) Hc' blocked last rest
             (initial_data (Some t))); auto using retried_blocked.
    unfold initial_data. now rewrite Ht.
Qed.

Lemma write_unfired_token_is_neutral_witness :
  exists r r',
    nice_output_stream_write example_stream 5 (Some (mkGCancellable false))
      (mkWriteEnv ([blocks WakeWritable] ++ fails broken_pipe :: []) false)
    = Some r
    /\ nice_output_stream_write example_stream 5 None
         (mkWriteEnv ([blocks WakeWritable] ++ fails broken_pipe :: []) false)
       = Some r'
    /\ outcome r = outcome r'.
Proof.
  apply (write_unfired_token_is_neutral example_stream example_agent 5
           (mkGCancellable false) [blocks WakeWritable] (fails broken_pipe) []).
  - reflexivity.
  - reflexivity.
  - unfold G_MAXSIZE. lia.
  - reflexivity.
  - repeat constructor; discriminate.
  - reflexivity.
  - reflexivity.
Defined.

(** * Accepted bytes, the assertions and cancellation *)




(** What gets past the two assertions is never a bare 0, and carries an error
    exactly when it is -1. *)
Lemma write_finish_checked (c : option GCancellable) (late : bool)
  (x : LoopExit) (len : Z) (err : option GError) :
  outcome (write_finish c late x) = Returned len err ->
  len <> 0 /\ (err <> None <-> len = -1).
Proof.
  unfold write_finish. cbn [outcome].
  set (cw := is_set c && _). set (ce := if cw then _ else _).
  set (l := if cw then -1 else exit_len x).
  destruct (negb (Bool.eqb (is_set ce) (l =? -1))) eqn:E1; [discriminate|].
  destruct (l =? 0) eqn:E2; [discriminate|].
  intros H.
  assert (Hle : len = l /\ err = ce).
  { destruct cw; [destruct ce; [discriminate|] |]; now injection H as <- <-. }
  destruct Hle as [-> ->].
  apply negb_false_iff, Bool.eqb_prop in E1. apply Z.eqb_neq in E2.
  split; [exact E2|]. split.
  - intros Hne. apply Z.eqb_eq. rewrite <- E1. now destruct ce.
  - intros Hm. apply Z.eqb_eq in Hm. rewrite Hm in E1. now destruct ce.
Qed.




Lemma write_cancelled_cb_sets (wd : WriteData) :
  is_set (wd_error (write_cancelled_cb wd)) = true.
Proof. unfold write_cancelled_cb. cbn. now destruct (wd_error wd). Qed.

Lemma after_send_fired (t : GCancellable) (it : Iteration) (wd : WriteData) :
  is_set (wd_error (after_send (Some t) it wd))
  = is_set (wd_error wd) || cancelled_cb_in_send it
  /\ writable (after_send (Some t) it wd) = writable_cb_in_send it.
Proof.
  unfold after_send. cbn [is_set andb].
  destruct (cancelled_cb_in_send it), (writable_cb_in_send it),
    (wd_error wd); cbn; auto.
Qed.

(** The record holds an error at the end of the loop exactly when it held one
    at the start or [write_cancelled_cb] ran on one of the turns. *)
Lemma write_loop_fired (count : Z) (t : GCancellable) :
  0 < count < 2 ^ 64 ->
  forall (blocked : list Iteration) (last : Iteration) (rest : list Iteration)
         (wd : WriteData) (x : LoopExit),
    Forall retried blocked ->
    would_block last = false ->
    write_loop count (Some t) wd 0 (blocked ++ last :: rest) = Some x ->
    is_set (wd_error (exit_data x))
    = is_set (wd_error wd) || existsb fires_on_retry blocked
      || cancelled_cb_in_send last.
Proof.
  intros Hc blocked last rest. induction blocked as [|it blocked IH];
    intros wd x Hb Hl H; cbn [app] in H; loop_step_in Hc H.
  - rewrite Hl in H.
    assert (Hx : exit_data x = after_send (Some t) last wd).
    { destruct (0 <? n_sent last).
      - unfold loop_again in H. cbn [exit_len] in H.
        rewrite to_gsize_to_gssize, Z.ltb_irrefl in H by lia.
        now injection H as <-.
      - now injection H as <-. }
    rewrite Hx. cbn [existsb]. rewrite orb_false_r.
    apply after_send_fired.
  - inversion Hb as [|? ? [Hwb Hk] Hb']; subst. rewrite Hwb in H.
    destruct (after_send_fired t it wd) as [He Hw].
    unfold loop_again in H. cbn [exit_len] in H.
    rewrite (gsize_zero_lt count) in H by lia.
    cbn [existsb]. unfold fires_on_retry.
    rewrite Hw, He in H.
    destruct (writable_cb_in_send it) eqn:Ew;
      destruct (cancelled_cb_in_send it) eqn:Ec;
      destruct (is_set (wd_error wd)) eqn:Ed; cbn [negb andb orb] in H |- *;
      try (destruct (write_loop count (Some t) _ 0 (blocked ++ last :: rest))
             as [x0|] eqn:E; [|discriminate];
           injection H as <-; cbn [exit_data];
           rewrite (IH _ _ Hb' Hl E), He; reflexivity).
    destruct (wake it) as [w|] eqn:Ek; [|congruence].
    destruct (write_loop count (Some t) _ 0 (blocked ++ last :: rest))
      as [x0|] eqn:E; [|discriminate].
    injection H as <-. cbn [exit_data]. rewrite (IH _ _ Hb' Hl E).
    destruct w; cbn [wake_callback is_set reliable_transport_writeable_cb
                     wd_error];
      rewrite ?write_cancelled_cb_sets, ?He; reflexivity.
Qed.


